(** * generate_db: scoring and materialisation of topic-model relations

    A shallow embedding of [lib/generate_db.py].  The NumPy arrays the script
    works on are IEEE binary64, modelled with Rocq's primitive floats; an
    array of one axis is a list, an array of two axes is a list of rows
    together with its column count (so that the shape of an empty slice is
    still known).  A raised Python exception is a value of [result].  The
    SQL connection is represented by the rows each builder hands to
    [executemany], in insertion order. *)

From Stdlib Require Import String Ascii ZArith QArith Floats Uint63.
From Stdlib Require Import Decimal DecimalString DecimalPos DecimalZ.
From Stdlib Require Import List Bool Arith Lia Permutation Sorted.
Import ListNotations.

Local Open Scope nat_scope.

(** A decimal literal denotes the nearest binary64 value, as it does when
    Python parses it. *)
Set Warnings "-inexact-float".

(** ** Exceptions *)

Inductive exn : Type :=
| ValueError | IndexError | TypeError | AttributeError | OverflowError.

Inductive result (A : Type) : Type :=
| Ok (a : A)
| Raise (e : exn).

Arguments Ok {A} a.
Arguments Raise {A} e.

Definition bind {A B : Type} (m : result A) (k : A -> result B) : result B :=
  match m with
  | Ok a => k a
  | Raise e => Raise e
  end.

Notation "x <- m ;; k" := (bind m (fun x => k))
  (at level 61, m at next level, right associativity).

(** A [for] loop whose body may raise and which collects what every round
    hands to [executemany]. *)
Fixpoint for_each {A B : Type} (body : A -> result (list B)) (l : list A)
  : result (list B) :=
  match l with
  | [] => Ok []
  | x :: t => r <- body x ;; rs <- for_each body t ;; Ok (r ++ rs)
  end.

(** Python's [enumerate]. *)
Definition enumerate {A : Type} (l : list A) : list (nat * A) :=
  combine (seq 0 (length l)) l.

(** Python's list subscript [l[i]] for a non-negative [i]. *)
Definition subscript {A : Type} (l : list A) (i : nat) : result A :=
  match nth_error l i with
  | Some x => Ok x
  | None => Raise IndexError
  end.

(** ** Utility functions *)

(** [generic_generator] called with three sequences: [zip] stops at the
    shortest. *)
Definition generic_generator {A B C : Type}
  (xs : list A) (ys : list B) (zs : list C) : list (A * B * C) :=
  combine (combine xs ys) zs.

(** ** NumPy arrays *)

Abbreviation array1 := (list float) (only parsing).

Record array2 : Type := mkArray2 { ncols : nat; rows : list array1 }.

(** What [loadtxt] and [asarray] can return here: an array of floats of no,
    one or two axes, or an array of one axis whose elements are Python
    lists. *)
Inductive ndarray : Type :=
| Arr0 (x : float)
| Arr1 (v : array1)
| Arr2 (m : array2)
| ArrObj (ls : list (list float)).

Definition well_shaped (m : array2) : Prop :=
  Forall (fun r => length r = ncols m) (rows m).

Definition rectangular (k : nat) (ls : list array1) : bool :=
  forallb (fun r => length r =? k) ls.

(** [np.asarray] of a list of lists of floats.  The empty list gives an
    array of one axis and no element.  Rows of different lengths do not
    raise here: with the NumPy releases that run under Python 2 they give
    an array of one axis that holds the lists themselves, and it is the
    arithmetic that follows that raises. *)
Definition asarray (ls : list (list float)) : result ndarray :=
  match ls with
  | [] => Ok (Arr1 [])
  | r :: _ =>
      if rectangular (length r) ls
      then Ok (Arr2 (mkArray2 (length r) ls))
      else Ok (ArrObj ls)
  end.

(** [np.squeeze]: axes of length one are dropped. *)
Definition squeeze (m : array2) : ndarray :=
  match rows m with
  | [r] => match r with
           | [x] => Arr0 x
           | _ => Arr1 r
           end
  | _ => if ncols m =? 1 then Arr1 (concat (rows m)) else Arr2 m
  end.

Definition is_blank (l : list float) : bool :=
  match l with [] => true | _ => false end.

(** [np.loadtxt] on a file whose lines have been split and parsed: blank
    lines are skipped, lines of different lengths raise, and the result is
    squeezed (the default [ndmin=0]). *)
Definition loadtxt (lines : list (list float)) : result ndarray :=
  match filter (fun l => negb (is_blank l)) lines with
  | [] => Ok (Arr1 [])
  | r :: t =>
      if rectangular (length r) (r :: t)
      then Ok (squeeze (mkArray2 (length r) (r :: t)))
      else Raise ValueError
  end.

(** Element-wise application of a function to a 2-d array. *)
Definition amap (f : float -> float) (m : array2) : array2 :=
  mkArray2 (ncols m) (map (map f) (rows m)).

(** [m[a:]] *)
Definition slice_from (a : nat) (m : array2) : array2 :=
  mkArray2 (ncols m) (skipn a (rows m)).

(** [x ** .5] and [x ** 2] with a scalar exponent are [np.sqrt] and
    [np.square]. *)
Definition np_sqrt (x : float) : float := PrimFloat.sqrt x.
Definition np_square (x : float) : float := PrimFloat.mul x x.

Definition zip_with {A B C : Type} (f : A -> B -> C) (xs : list A) (ys : list B)
  : list C :=
  map (fun p => f (fst p) (snd p)) (combine xs ys).

(** Broadcasting of the last axis: two lengths are compatible when they are
    equal or one of them is 1, and the axis of length 1 is stretched. *)
Definition broadcast_dim (n k : nat) : result nat :=
  if n =? k then Ok n
  else if n =? 1 then Ok k
  else if k =? 1 then Ok n
  else Raise ValueError.

Definition stretch (w : nat) (v : array1) : array1 :=
  match v with
  | [x] => repeat x w
  | _ => v
  end.

(** A binary ufunc applied to a 1-d array [a] and a 2-d array [b]
    ([f a b], e.g. [a - b]). *)
Definition broadcast (f : float -> float -> float) (a : array1) (b : array2)
  : result array2 :=
  w <- broadcast_dim (length a) (ncols b) ;;
  Ok (mkArray2 w (map (fun r => zip_with f (stretch w a) (stretch w r)) (rows b))).

(** ** Sums

    [np.sum] along the last axis of an array of two axes, as NumPy 1.9 to
    1.16 compute it (the releases with pairwise summation that run under
    Python 2).  The output entry starts at the identity 0, and the inner
    loop is handed the row in groups of at most 8192 entries (the size of
    the buffer of the iterator), each of which is summed by
    [pairwise_sum] and added to the output entry.  [pairwise_sum] adds
    fewer than eight entries one after the other from 0; it adds up to 128
    entries with eight accumulators, one entry of each full group of eight
    going to each, the accumulators being added two by two and the entries
    left over one after the other; and it halves a longer group at a
    multiple of eight.

    The sum and the row normalisation are written over any carrier with
    an addition and a division, so that the same definitions are read over
    binary64 and over the rationals. *)
Section Sums.
Context {A : Type} (zero : A) (add div : A -> A -> A).

(** The loop [res += a[i]] over the entries of [v]. *)
Definition sum_loop (v : list A) (res : A) : A := fold_left add v res.

(** The accumulators [r[0]] to [r[7]]: every full group of eight entries
    of [v] adds one entry to each; fewer than eight entries are left. *)
Fixpoint block_loop (r : A * A * A * A * A * A * A * A) (v : list A)
  : A * A * A * A * A * A * A * A * list A :=
  match v with
  | x0 :: x1 :: x2 :: x3 :: x4 :: x5 :: x6 :: x7 :: t =>
      let '(r0, r1, r2, r3, r4, r5, r6, r7) := r in
      block_loop (add r0 x0, add r1 x1, add r2 x2, add r3 x3,
                  add r4 x4, add r5 x5, add r6 x6, add r7 x7) t
  | _ => (r, v)
  end.

(** A group of 8 to 128 entries: the accumulators start at the first eight
    entries. *)
Definition block_sum (v : list A) : A :=
  match v with
  | x0 :: x1 :: x2 :: x3 :: x4 :: x5 :: x6 :: x7 :: t =>
      let '(r0, r1, r2, r3, r4, r5, r6, r7, rest) :=
        block_loop (x0, x1, x2, x3, x4, x5, x6, x7) t in
      sum_loop rest (add (add (add r0 r1) (add r2 r3))
                         (add (add r4 r5) (add r6 r7)))
  | _ => sum_loop v zero
  end.

(** The recursion halves the group, so a [fuel] of the length of [v] is
    never used up ([pairwise_sum_fuel] below). *)
Fixpoint pairwise_sum (fuel : nat) (v : list A) : A :=
  let n := length v in
  if n <? 8 then sum_loop v zero
  else if n <=? 128 then block_sum v
  else match fuel with
       | 0 => block_sum v
       | S fuel' =>
           let n2 := n / 2 - (n / 2) mod 8 in
           add (pairwise_sum fuel' (firstn n2 v))
               (pairwise_sum fuel' (skipn n2 v))
       end.

(** The number of entries the inner loop is handed at once. *)
Definition bufsize : nat := 2 ^ 13.

(** [out += pairwise_sum(group)] for the successive groups of [v]; every
    round takes at least one entry, so a [fuel] of the length of [v] is
    never used up ([reduce_loop_fuel] below). *)
Fixpoint reduce_loop (fuel : nat) (v : list A) (res : A) : A :=
  match v, fuel with
  | [], _ => res
  | _, 0 => res
  | _, S fuel' =>
      let group := firstn bufsize v in
      reduce_loop fuel' (skipn bufsize v)
                  (add res (pairwise_sum (length group) group))
  end.

Definition sum_list (v : list A) : A := reduce_loop (length v) v zero.

(** [m / m.sum(axis=1, keepdims=True)] *)
Definition normalize_row (r : list A) : list A :=
  map (fun x => div x (sum_list r)) r.

Definition normalize_rows (m : list (list A)) : list (list A) :=
  map normalize_row m.
End Sums.

Definition fsum : array1 -> float := sum_list 0%float PrimFloat.add.

(** [m.sum(axis=1)] *)
Definition np_sum_axis1 (m : array2) : array1 := map fsum (rows m).

(** [np.dot] does not broadcast: the shapes must agree.  The order in
    which the products are added is that of the BLAS library NumPy is
    linked with; they are added here as [np.sum] adds them.  What is
    stated below of the two scores that go through [np.dot] (a shape
    error, one score per row, the NaN of a zero vector) holds for every
    order of the additions. *)
Definition dot1 (a b : array1) : float := fsum (zip_with PrimFloat.mul a b).

Definition np_dot (b : array2) (a : array1) : result array1 :=
  if ncols b =? length a
  then Ok (map (fun r => dot1 r a) (rows b))
  else Raise ValueError.

(** ** argsort

    NumPy sorts floats with NaN last.  The sort is an insertion sort on
    (value, index) pairs: an element goes before the first element that is
    strictly greater, so equal values keep their index order.  This is
    what NumPy's default sort (a quicksort that ends in insertion sorts)
    does on arrays of at most 16 entries.  On longer arrays the default
    sort may order equal values differently; it still returns a
    permutation of the indices along which the values ascend.  Every
    statement below about arrays of any length uses these two facts only
    ([argsort_perm], [np_argsort_sorted]): it says which rows are
    inserted and that their scores ascend, and says nothing of the order
    of rows of equal score nor of which of several candidates of equal
    score is kept at the cut. *)
Definition np_lt (a b : float) : bool :=
  PrimFloat.ltb a b || (negb (PrimFloat.eqb b b) && PrimFloat.eqb a a).

Section Argsort.
Context {A : Type} (lt : A -> A -> bool).

Fixpoint insert_idx (v : A) (i : nat) (l : list (A * nat)) : list (A * nat) :=
  match l with
  | [] => [(v, i)]
  | (w, j) :: t =>
      if lt v w then (v, i) :: (w, j) :: t
      else (w, j) :: insert_idx v i t
  end.

Fixpoint sort_idx (l : list (A * nat)) (acc : list (A * nat)) : list (A * nat) :=
  match l with
  | [] => acc
  | (v, i) :: t => sort_idx t (insert_idx v i acc)
  end.

Definition argsort (v : list A) : list nat :=
  map snd (sort_idx (combine v (seq 0 (length v))) []).
End Argsort.

Definition np_argsort : array1 -> list nat := argsort np_lt.

(** [v[idx]] with an array of indices. *)
Definition take (v : array1) (idx : list nat) : array1 :=
  map (fun j => nth j v nan) idx.

(** [v[v == 0] = np.inf] *)
Definition drop_zeros (v : array1) : array1 :=
  map (fun x => if PrimFloat.eqb x 0%float then infinity else x) v.

(** [len(v)] used in float arithmetic. *)
Definition float_of_nat (n : nat) : float :=
  PrimFloat.of_uint63 (Uint63.of_Z (Z.of_nat n)).

(** ** Score functions

    Every score function takes a 1-d array [a] and a 2-d array [b] with the
    observations over rows, and is called with the default [axis=1]. *)

(** [np.sum((doca**.5 - docb**.5)**2, axis=axis)] *)
Definition hellinger_distance (doca : array1) (docb : array2) : result array1 :=
  d <- broadcast PrimFloat.sub (map np_sqrt doca) (amap np_sqrt docb) ;;
  Ok (np_sum_axis1 (amap np_square d)).

(** [np.sum((a-b)**2, axis=axis)**.5] *)
Definition euclidean_distance (a : array1) (b : array2) : result array1 :=
  d <- broadcast PrimFloat.sub a b ;;
  Ok (map np_sqrt (np_sum_axis1 (amap np_square d))).

(** The scaling [0.5 * score / (100. * len(topica))] of one topic score. *)
Definition topic_scale (n : nat) (s : float) : float :=
  PrimFloat.div (PrimFloat.mul 0.5%float s)
                (PrimFloat.mul 100%float (float_of_nat n)).

Definition get_topic_score (topica : array1) (topicb : array2) : result array1 :=
  d <- broadcast PrimFloat.sub
         (map np_sqrt (map PrimFloat.abs topica))
         (amap np_sqrt (amap PrimFloat.abs topicb)) ;;
  let score := np_sum_axis1 (amap np_square d) in
  Ok (map (topic_scale (length topica)) score).

(** [np.sum((terma - termb)**2, axis=axis)] *)
Definition get_term_score (terma : array1) (termb : array2) : result array1 :=
  d <- broadcast PrimFloat.sub terma termb ;;
  Ok (np_sum_axis1 (amap np_square d)).

(** [np.dot(b,a)/(a_norm*b_norm)].  [a_norm] is a scalar, whose [** .5]
    goes through the C library's [pow]; it is taken here as the square
    root, which [pow] agrees with on the zeros and NaN that the statement
    about this score depends on. *)
Definition cosine_distance (a : array1) (b : array2) : result array1 :=
  let a_norm := np_sqrt (dot1 a a) in
  let b_norm := map np_sqrt (np_sum_axis1 (amap np_square b)) in
  d <- np_dot b a ;;
  Ok (zip_with PrimFloat.div d (map (PrimFloat.mul a_norm) b_norm)).

(** [np.log] is the C library's; the two scores that use it are stated for
    whatever function it is. *)
Section Transcendental.
Variable np_log : float -> float.

(** [-np.log(np.dot(b**.5, a**.5))] *)
Definition bhatt_distance (a : array1) (b : array2) : result array1 :=
  d <- np_dot (amap np_sqrt b) (map np_sqrt a) ;;
  Ok (map (fun x => PrimFloat.opp (np_log x)) d).

(** [np.sum(a*(np.log(a)-np.log(b)), axis=axis)] *)
Definition kl_distance (a : array1) (b : array2) : result array1 :=
  d <- broadcast PrimFloat.sub (map np_log a) (amap np_log b) ;;
  p <- broadcast PrimFloat.mul a d ;;
  Ok (np_sum_axis1 p).

End Transcendental.

(** ** Rows of the relation tables

    A row [(entity_a, entity_b, score)]; the [id] column is NULL in every
    insert.  [write_doc_doc] and [write_term_term] pass the two entities
    through [str]; the INTEGER columns store the same integers. *)
Abbreviation row := (nat * nat * float)%type (only parsing).

Definition entity_a (r : row) : nat := fst (fst r).
Definition entity_b (r : row) : nat := snd (fst r).
Definition score (r : row) : float := snd r.

(** ** write_doc_doc *)

Definition theta_of (gamma : array2) : array2 :=
  mkArray2 (ncols gamma)
           (normalize_rows 0%float PrimFloat.add PrimFloat.div (rows gamma)).

(** One round of the loop over [range(len(theta))]. *)
Definition doc_doc_round (theta : array2) (a : nat) : result (list row) :=
  let doc := nth a (rows theta) [] in
  distance <- hellinger_distance doc (slice_from a theta) ;;
  let distance := drop_zeros distance in
  let min_doc_idx := firstn 100 (np_argsort distance) in
  Ok (generic_generator (repeat a 100) min_doc_idx (take distance min_doc_idx)).

Definition write_doc_doc (gamma_file : list (list float)) : result (list row) :=
  gamma <- loadtxt gamma_file ;;
  match gamma with
  | Arr2 g =>
      let theta := theta_of g in
      for_each (doc_doc_round theta) (seq 0 (length (rows theta)))
  | _ => Raise ValueError  (* gamma.sum(axis=1): no such axis *)
  end.

(** ** write_doc_topic *)

Definition doc_topic_round (line : nat * list float) : result (list row) :=
  let (doc_no, doc) := line in
  Ok (generic_generator (repeat doc_no (length doc)) (seq 0 (length doc)) doc).

Definition write_doc_topic (gamma_file : list (list float)) : result (list row) :=
  _ <- loadtxt gamma_file ;;
  for_each doc_topic_round (enumerate gamma_file).

(** ** write_topics

    The file handle the function opens on the global [filename] is never
    written to; what reaches the database is the title of each line. *)

(** ["{%s, %s, %s}" % (x, y, z)] *)
Definition title_format (x y z : string) : string :=
  ("{" ++ x ++ ", " ++ y ++ ", " ++ z ++ "}")%string.

Definition topics_round (vocab : list string) (topic : list float)
  : result (list string) :=
  let index := rev (np_argsort topic) in
  i0 <- subscript index 0 ;; t0 <- subscript vocab i0 ;;
  i1 <- subscript index 1 ;; t1 <- subscript vocab i1 ;;
  i2 <- subscript index 2 ;; t2 <- subscript vocab i2 ;;
  Ok [title_format t0 t1 t2].

Definition write_topics (beta_file : list (list float)) (vocab : list string)
  : result (list string) :=
  for_each (topics_round vocab) beta_file.

(** ** write_topic_topic *)

Definition topic_topic_round (topics : array2) (e : nat * array1)
  : result (list row) :=
  let (topica_count, topic) := e in
  scores <- get_topic_score topic (slice_from topica_count topics) ;;
  Ok (generic_generator (repeat topica_count (length scores))
                        (seq 0 (length scores)) scores).

Definition write_topic_topic (beta_file : list (list float)) : result (list row) :=
  topics <- asarray beta_file ;;
  match topics with
  | Arr2 t => for_each (topic_topic_round t) (enumerate (rows t))
  | ArrObj _ => Raise TypeError  (* np.abs(topicb) on an array of lists *)
  | _ => Ok []   (* an empty file: nothing to enumerate *)
  end.

(** ** write_term_term *)

(** [np.exp] is the C library's, like [np.log]. *)
Section TermTerm.
Variable np_exp : float -> float.

Definition term_term_round (v : array2) (a : nat) : result (list row) :=
  let terma := nth a (rows v) [] in
  score <- get_term_score terma (slice_from a v) ;;
  let score := drop_zeros score in
  let min_score_idx := firstn 100 (np_argsort score) in
  Ok (generic_generator (repeat a (length score)) min_score_idx
                        (take score min_score_idx)).

(** [no_vocab] is received and not used.  [np.exp] turns the list of lines
    into an array as [asarray] does; on an array of lists it looks for a
    method [exp] of the lists. *)
Definition write_term_term (beta_file : list (list float)) (no_vocab : nat)
  : result (list row) :=
  v <- asarray beta_file ;;
  match v with
  | Arr2 m =>
      let v := amap (fun x => np_sqrt (np_exp x)) m in
      for_each (term_term_round v) (seq 0 (length (rows v)))
  | ArrObj _ => Raise AttributeError
  | _ => Ok []
  end.

End TermTerm.

(** ** Scores of one pair, and closed forms of what the builders insert *)

(** The Hellinger-style score of one row [b] against the reference [a]. *)
Definition hellinger_pair (a b : array1) : float :=
  fsum (map np_square (zip_with PrimFloat.sub (map np_sqrt a) (map np_sqrt b))).

(** The topic score of one row [b] against the reference [a]. *)
Definition topic_pair (a b : array1) : float :=
  topic_scale (length a)
    (fsum (map np_square
       (zip_with PrimFloat.sub (map np_sqrt (map PrimFloat.abs a))
                               (map np_sqrt (map PrimFloat.abs b))))).

(** The term score of one row [b] against the reference [a]. *)
Definition term_pair (a b : array1) : float :=
  fsum (map np_square (zip_with PrimFloat.sub a b)).

(** A parsed file that [loadtxt] reads as an array of two axes: [n] lines
    of [k] numbers each, with at least two lines and two columns. *)
Definition matrix_file (n k : nat) (lines : list (list float)) : Prop :=
  2 <= n /\ 2 <= k /\ length lines = n /\ rectangular k lines = true.

(** What [write_doc_doc] inserts for the reference document [a]. *)
Definition doc_doc_rows (theta : list array1) (a : nat) : list row :=
  let distance :=
    drop_zeros (map (hellinger_pair (nth a theta [])) (skipn a theta)) in
  let min_doc_idx := firstn 100 (np_argsort distance) in
  generic_generator (repeat a 100) min_doc_idx (take distance min_doc_idx).

(** What [write_term_term] inserts for the reference line [a] of [v]. *)
Definition term_term_rows (v : list array1) (a : nat) : list row :=
  let score := drop_zeros (map (term_pair (nth a v [])) (skipn a v)) in
  let min_score_idx := firstn 100 (np_argsort score) in
  generic_generator (repeat a (length score)) min_score_idx
                    (take score min_score_idx).

(** What [write_topic_topic] inserts for the reference topic [i] of [n]:
    the second entity is the position [j] in [topics[i:]], the score is
    that of the topics [i] and [i + j]. *)
Definition topic_topic_rows (topics : list array1) (i : nat) : list row :=
  map (fun j => (i, j, topic_pair (nth i topics []) (nth (i + j) topics [])))
      (seq 0 (length topics - i)).

(** What [write_doc_topic] inserts for line [d] of the gamma file. *)
Definition doc_topic_rows (gamma_file : list (list float)) (d : nat) : list row :=
  map (fun t => (d, t, nth t (nth d gamma_file []) nan))
      (seq 0 (length (nth d gamma_file []))).

(** The bound of the specification on the number of doc_doc rows of a
    corpus of [n] documents: [sum(min(100, n-1-i) for i in 0..n-1)]. *)
Definition doc_doc_bound (n : nat) : nat :=
  list_sum (map (fun i => Nat.min 100 (n - 1 - i)) (seq 0 n)).

(** The number of rows [write_doc_doc] inserts for [n] documents. *)
Definition doc_doc_count (n : nat) : nat :=
  list_sum (map (fun i => Nat.min 100 (n - i)) (seq 0 n)).

(** A score function returned a vector with one score per row of [b]. *)
Definition one_score_per_row (b : array2) (r : result array1) : Prop :=
  exists d, r = Ok d /\ length d = length (rows b).

(** ** The order NumPy sorts by, and the title of the three heaviest terms *)

(** [a <= b] in the order of the sort: [b] is not sorted before [a]. *)
Definition np_le (a b : float) : bool := negb (np_lt b a).

(** [title] names three distinct terms of [topic], heaviest first, and no
    other term of [topic] is heavier than the third. *)
Definition top3_title (vocab : list string) (topic : list float)
  (title : string) : Prop :=
  exists i0 i1 i2 t0 t1 t2,
    title = title_format t0 t1 t2 /\
    nth_error vocab i0 = Some t0 /\
    nth_error vocab i1 = Some t1 /\
    nth_error vocab i2 = Some t2 /\
    NoDup [i0; i1; i2] /\
    i0 < length topic /\ i1 < length topic /\ i2 < length topic /\
    np_le (nth i1 topic nan) (nth i0 topic nan) = true /\
    np_le (nth i2 topic nan) (nth i1 topic nan) = true /\
    forall j, j < length topic -> j <> i0 -> j <> i1 -> j <> i2 ->
              np_le (nth j topic nan) (nth i2 topic nan) = true.

(** On (value, index) pairs: [q] is not sorted before [p]. *)
Definition pair_le {A : Type} (lt : A -> A -> bool) (p q : A * nat) : Prop :=
  lt (fst q) (fst p) = false.

(** The position of a binary64 value in the order of the sort: its class
    (from minus infinity up to NaN), then exponent and mantissa, negated
    for the negative numbers. *)
Definition sort_key (s : spec_float) : Z * Z * Z :=
  match s with
  | S754_nan => (3, 0, 0)
  | S754_infinity true => (-2, 0, 0)
  | S754_infinity false => (2, 0, 0)
  | S754_zero _ => (0, 0, 0)
  | S754_finite true m e => (-1, - e, - Zpos m)
  | S754_finite false m e => (1, e, Zpos m)
  end%Z.

Definition key_lt (p q : Z * Z * Z) : Prop :=
  let '(c1, e1, m1) := p in
  let '(c2, e2, m2) := q in
  (c1 < c2 \/ (c1 = c2 /\ (e1 < e2 \/ (e1 = e2 /\ m1 < m2))))%Z.

(** ** Normalisation over the rationals *)



(** ** write_topic_term

    Like [write_topics], the function opens a file handle on the global
    [filename] that it never writes to.  Every line is turned into an
    array of its own, so the lines need not have one length. *)

Definition topic_term_round (e : nat * list float) : result (list row) :=
  let (topic_no, topic) := e in
  let index := rev (np_argsort topic) in
  Ok (generic_generator (repeat topic_no (length topic)) index
                        (take topic index)).

Definition write_topic_term (beta_file : list (list float)) : result (list row) :=
  for_each topic_term_round (enumerate beta_file).

(** ** Strings

    Python's whitespace: space, tab, newline, vertical tab, form feed and
    carriage return. *)
Definition is_space (c : ascii) : bool :=
  let n := nat_of_ascii c in
  (n =? 32) || ((9 <=? n) && (n <=? 13)).

Definition is_empty (s : string) : bool :=
  match s with EmptyString => true | _ => false end.

Fixpoint all_space (s : string) : bool :=
  match s with
  | EmptyString => true
  | String c t => is_space c && all_space t
  end.

(** No character of [s] is whitespace. *)
Fixpoint no_space (s : string) : bool :=
  match s with
  | EmptyString => true
  | String c t => negb (is_space c) && no_space t
  end.

(** [c in s] *)
Fixpoint contains (c : ascii) (s : string) : bool :=
  match s with
  | EmptyString => false
  | String c' t => Ascii.eqb c' c || contains c t
  end.

(** [str(z)] of an integer: its decimal digits, after a minus sign when it
    is negative. *)
Definition py_str (z : Z) : string := NilZero.string_of_int (Z.to_int z).

(** [s.lstrip()], [s.rstrip()] and [s.strip()] *)
Fixpoint lstrip (s : string) : string :=
  match s with
  | EmptyString => EmptyString
  | String c t => if is_space c then lstrip t else s
  end.

Fixpoint rstrip (s : string) : string :=
  match s with
  | EmptyString => EmptyString
  | String c t =>
      let t' := rstrip t in
      if is_space c && is_empty t' then EmptyString else String c t'
  end.

Definition strip (s : string) : string := rstrip (lstrip s).

(** [s.split()]: the maximal runs of characters that are not whitespace.
    [cur] is the run being read. *)
Fixpoint split_ws (s : string) (cur : string) : list string :=
  match s with
  | EmptyString => if is_empty cur then [] else [cur]
  | String c t =>
      if is_space c
      then if is_empty cur then split_ws t EmptyString
           else cur :: split_ws t EmptyString
      else split_ws t (cur ++ String c EmptyString)%string
  end.

Definition py_split (s : string) : list string := split_ws s EmptyString.

(** [s.split(sep)] with a separator of one character: the fields between
    the separators, empty fields included. *)
Fixpoint split_on (sep : ascii) (s : string) (cur : string) : list string :=
  match s with
  | EmptyString => [cur]
  | String c t =>
      if Ascii.eqb c sep then cur :: split_on sep t EmptyString
      else split_on sep t (cur ++ String c EmptyString)%string
  end.

(** [int(s)] on a field of a token: an optional sign and at least one
    decimal digit.  (The fields have no whitespace, which [int] would
    skip; what [int] makes of a string that is not of this form is only
    used below as far as the kind of the exception, ValueError.) *)
Definition digit_of (c : ascii) : option Z :=
  let n := nat_of_ascii c in
  if (48 <=? n) && (n <=? 57) then Some (Z.of_nat (n - 48)) else None.

Fixpoint parse_digits (s : string) (acc : Z) : option Z :=
  match s with
  | EmptyString => Some acc
  | String c t =>
      match digit_of c with
      | Some d => parse_digits t (10 * acc + d)%Z
      | None => None
      end
  end.

Definition parse_unsigned (s : string) : result Z :=
  match s with
  | EmptyString => Raise ValueError
  | _ => match parse_digits s 0%Z with
         | Some z => Ok z
         | None => Raise ValueError
         end
  end.

Definition py_int (s : string) : result Z :=
  match s with
  | String "+"%char r => parse_unsigned r
  | String "-"%char r => z <- parse_unsigned r ;; Ok (- z)%Z
  | _ => parse_unsigned s
  end.

(** ** file_generator, write_terms and write_docs *)

(** [file_generator(fhandle)]: the lines of the file, stripped. *)
Definition file_generator (fhandle : list string) : list string :=
  map strip fhandle.

(** The titles [write_terms] and [write_docs] hand to [executemany], one
    per line of the file. *)
Definition write_terms (terms_file : list string) : result (list string) :=
  Ok (file_generator terms_file).

Definition write_docs (docs_file : list string) : result (list string) :=
  Ok (file_generator docs_file).

(** ** write_doc_term

    The dict [terms] is an association list: a key that is set again keeps
    its place and takes the new value.  The order in which Python 2 lists
    the keys of a dict is that of its hash table; the statements below are
    about which rows are inserted, not about their order. *)
Abbreviation dict := (list (Z * Z)) (only parsing).

Fixpoint dict_set (d : dict) (k v : Z) : dict :=
  match d with
  | [] => [(k, v)]
  | (k', v') :: t =>
      if Z.eqb k' k then (k', v) :: t else (k', v') :: dict_set t k v
  end.

Fixpoint dict_get (d : dict) (k : Z) : option Z :=
  match d with
  | [] => None
  | (k', v') :: t => if Z.eqb k' k then Some v' else dict_get t k
  end.

(** [terms[i]]; a key that is missing is a KeyError, which like IndexError
    is a LookupError. *)
Definition dict_subscript (d : dict) (k : Z) : result Z :=
  match dict_get d k with
  | Some v => Ok v
  | None => Raise IndexError
  end.

(** [terms[int(term.split(':')[0])] = int(term.split(':')[1])]: the right
    hand side is evaluated first. *)
Definition parse_term (term : string) : result (Z * Z) :=
  let fields := split_on ":"%char term EmptyString in
  v <- (f <- subscript fields 1 ;; py_int f) ;;
  k <- (f <- subscript fields 0 ;; py_int f) ;;
  Ok (k, v).

Fixpoint parse_terms (doc : list string) (terms : dict) : result dict :=
  match doc with
  | [] => Ok terms
  | term :: t =>
      kv <- parse_term term ;;
      parse_terms t (dict_set terms (fst kv) (snd kv))
  end.

(** A row [(doc, term, score)] of doc_term: the counts are integers. *)
Abbreviation term_row := (nat * Z * Z)%type (only parsing).

(** An integer that fits the signed 64-bit INTEGER of SQLite. *)
Definition int64 (z : Z) : bool := ((- 2 ^ 63 <=? z) && (z <? 2 ^ 63))%Z.

(** [cur.executemany(ins, res)] on rows whose term and count were read
    from the file: sqlite3 raises OverflowError when it binds an integer
    that does not fit, and the rows bound before it are lost with the
    transaction.  (The line number is far below [2 ^ 63] for any file.) *)
Definition executemany (res : list term_row) : result (list term_row) :=
  if forallb (fun r => int64 (snd (fst r)) && int64 (snd r)) res
  then Ok res
  else Raise OverflowError.

Definition doc_term_round (e : nat * string) : result (list term_row) :=
  let (doc_no, line) := e in
  let doc := tl (py_split line) in
  terms <- parse_terms doc [] ;;
  let keys := map fst terms in
  values <- for_each (fun i => v <- dict_subscript terms i ;; Ok [v]) keys ;;
  executemany (generic_generator (repeat doc_no (length keys)) keys values).

(** [no_words] is received and not used. *)
Definition write_doc_term (wordcount_file : list string) (no_words : nat)
  : result (list term_row) :=
  for_each doc_term_round (enumerate wordcount_file).

(** The dict built from the parsed (term, count) pairs of a line. *)
Definition dict_of (pairs : list (Z * Z)) : dict :=
  fold_left (fun d kv => dict_set d (fst kv) (snd kv)) pairs [].

(** The term ids and the counts of the dict of a line fit the INTEGER
    columns. *)
Definition line_fits (pairs : list (Z * Z)) : bool :=
  forallb (fun kv => int64 (fst kv) && int64 (snd kv)) (dict_of pairs).

(** Two lines that differ in their first token only, a label without
    whitespace followed by a whitespace character. *)
Definition relabelled (l1 l2 : string) : Prop :=
  exists lab1 lab2 sp rest,
    l1 = (lab1 ++ String sp rest)%string /\
    l2 = (lab2 ++ String sp rest)%string /\
    is_space sp = true /\
    no_space lab1 = true /\ no_space lab2 = true /\
    lab1 <> EmptyString /\ lab2 <> EmptyString.

(** The count a list of parsed (term, count) pairs gives to [k]: that of
    the last pair for [k]. *)
Definition last_count (pairs : list (Z * Z)) (k : Z) : option Z :=
  fold_left (fun acc p => if Z.eqb (fst p) k then Some (snd p) else acc)
            pairs None.

(** ** Finite values and zeros *)

(** What [drop_zeros] does to one score. *)
Definition remap_zero (x : float) : float :=
  if PrimFloat.eqb x 0%float then infinity else x.

(** [np.isfinite] *)
Definition np_isfinite (x : float) : bool :=
  PrimFloat.ltb (PrimFloat.abs x) infinity.

(** [x == 0] *)
Definition is_zero (x : float) : bool := PrimFloat.eqb x 0%float.

(** A value that is a zero (of either sign) or NaN. *)
Definition zero_or_nan (x : float) : Prop :=
  match Prim2SF x with
  | S754_zero _ | S754_nan => True
  | _ => False
  end.





(** In the order of the sort, [a] is not after [b]. *)
Definition ascending (v : list float) : Prop :=
  StronglySorted (fun x y => np_le x y = true) v.

(** The triangular number [n (n + 1) / 2]. *)
Definition triangle (n : nat) : nat := n * (n + 1) / 2.

(** ** The driver

    What a run leaves in the database: for each of the nine tables, the
    rows committed to it, or nothing when the table was not created.  Every
    writer creates its table and commits before it reads its input, and
    commits its rows at its very end: a writer that raises leaves its
    table created and empty. *)
Record database : Type := mkDatabase {
  db_terms : option (list string);
  db_docs : option (list string);
  db_doc_doc : option (list row);
  db_doc_topic : option (list row);
  db_topics : option (list string);
  db_topic_term : option (list row);
  db_topic_topic : option (list row);
  db_term_term : option (list row);
  db_doc_term : option (list term_row)
}.

Definition empty_database : database :=
  mkDatabase None None None None None None None None None.

(** How a run ends: the usage message and [sys.exit(1)], the end of the
    script, or an exception that no one catches. *)
Inductive outcome : Type :=
| Usage
| Completed (db : database)
| Aborted (db : database) (e : exn).

(** One writer of the sequence: its table is stored with the rows it
    returns, or empty when it raises, which ends the run. *)
Definition run_writer {A : Type} (r : result (list A))
  (store : list A -> database -> database)
  (next : database -> outcome) (db : database) : outcome :=
  match r with
  | Ok rows => next (store rows db)
  | Raise e => Aborted (store [] db) e
  end.

Section Driver.
Variable np_exp : float -> float.
(** The lines of a file, and the numbers of its lines once split and
    parsed, by file name. *)
Variable read_lines : string -> list string.
Variable read_floats : string -> list (list float).

Definition main (argv : list string) : outcome :=
  match argv with
  | [_; filename; doc_wordcount_file; beta_file; gamma_file; vocab_file;
     doc_file] =>
      let vocab := map (fun x => strip x) (read_lines vocab_file) in
      run_writer (write_terms (read_lines vocab_file))
        (fun t db => mkDatabase (Some t) (db_docs db) (db_doc_doc db)
           (db_doc_topic db) (db_topics db) (db_topic_term db)
           (db_topic_topic db) (db_term_term db) (db_doc_term db))
      (run_writer (write_docs (read_lines doc_file))
        (fun t db => mkDatabase (db_terms db) (Some t) (db_doc_doc db)
           (db_doc_topic db) (db_topics db) (db_topic_term db)
           (db_topic_topic db) (db_term_term db) (db_doc_term db))
      (run_writer (write_doc_doc (read_floats gamma_file))
        (fun t db => mkDatabase (db_terms db) (db_docs db) (Some t)
           (db_doc_topic db) (db_topics db) (db_topic_term db)
           (db_topic_topic db) (db_term_term db) (db_doc_term db))
      (run_writer (write_doc_topic (read_floats gamma_file))
        (fun t db => mkDatabase (db_terms db) (db_docs db) (db_doc_doc db)
           (Some t) (db_topics db) (db_topic_term db)
           (db_topic_topic db) (db_term_term db) (db_doc_term db))
      (run_writer (write_topics (read_floats beta_file) vocab)
        (fun t db => mkDatabase (db_terms db) (db_docs db) (db_doc_doc db)
           (db_doc_topic db) (Some t) (db_topic_term db)
           (db_topic_topic db) (db_term_term db) (db_doc_term db))
      (run_writer (write_topic_term (read_floats beta_file))
        (fun t db => mkDatabase (db_terms db) (db_docs db) (db_doc_doc db)
           (db_doc_topic db) (db_topics db) (Some t)
           (db_topic_topic db) (db_term_term db) (db_doc_term db))
      (run_writer (write_topic_topic (read_floats beta_file))
        (fun t db => mkDatabase (db_terms db) (db_docs db) (db_doc_doc db)
           (db_doc_topic db) (db_topics db) (db_topic_term db)
           (Some t) (db_term_term db) (db_doc_term db))
      (run_writer (write_term_term np_exp (read_floats beta_file)
                     (length vocab))
        (fun t db => mkDatabase (db_terms db) (db_docs db) (db_doc_doc db)
           (db_doc_topic db) (db_topics db) (db_topic_term db)
           (db_topic_topic db) (Some t) (db_doc_term db))
      (run_writer (write_doc_term (read_lines doc_wordcount_file)
                     (length vocab))
        (fun t db => mkDatabase (db_terms db) (db_docs db) (db_doc_doc db)
           (db_doc_topic db) (db_topics db) (db_topic_term db)
           (db_topic_topic db) (db_term_term db) (Some t))
      Completed))))))))
      empty_database
  | _ => Usage
  end.

End Driver.

(** The number of rows of a table, when it was created. *)
Definition table_size {A : Type} (t : option (list A)) : option nat :=
  match t with
  | Some rows => Some (length rows)
  | None => None
  end.

(** The sizes of the nine tables, in the order in which the driver writes
    them. *)
Definition tables (db : database) : list (option nat) :=
  [table_size (db_terms db); table_size (db_docs db);
   table_size (db_doc_doc db); table_size (db_doc_topic db);
   table_size (db_topics db); table_size (db_topic_term db);
   table_size (db_topic_topic db); table_size (db_term_term db);
   table_size (db_doc_term db)].

(** * Properties *)

(** ** The loop combinator *)

Lemma for_each_ok {A B : Type} (body : A -> result (list B)) (f : A -> list B) l :
  (forall x, In x l -> body x = Ok (f x)) ->
  for_each body l = Ok (flat_map f l).
Proof.
  induction l as [|x t IH]; intros Hb; simpl.
  - reflexivity.
  - rewrite (Hb x (or_introl eq_refl)). simpl.
    rewrite IH by (intros y Hy; apply Hb; now right).
    reflexivity.
Qed.

Lemma for_each_in {A B : Type} (body : A -> result (list B)) l rs r :
  for_each body l = Ok rs -> In r rs ->
  exists x rx, In x l /\ body x = Ok rx /\ In r rx.
Proof.
  revert rs. induction l as [|x t IH]; simpl; intros rs H Hin.
  - injection H as <-. destruct Hin.
  - destruct (body x) as [rx|e] eqn:Ex; simpl in H; [|discriminate].
    destruct (for_each body t) as [rt|e] eqn:Et; simpl in H; [|discriminate].
    injection H as <-. apply in_app_or in Hin as [Hin|Hin].
    + exists x, rx. auto.
    + destruct (IH rt eq_refl Hin) as (y & ry & Hy & Hb & Hr).
      exists y, ry. auto.
Qed.

(** ** Lengths *)

Lemma generic_generator_length {A B C : Type}
  (xs : list A) (ys : list B) (zs : list C) :
  length (generic_generator xs ys zs)
  = Nat.min (Nat.min (length xs) (length ys)) (length zs).
Proof. unfold generic_generator. now rewrite !length_combine. Qed.

Lemma zip_with_length {A B C : Type} (f : A -> B -> C) xs ys :
  length (zip_with f xs ys) = Nat.min (length xs) (length ys).
Proof. unfold zip_with. now rewrite length_map, length_combine. Qed.

Lemma take_length v idx : length (take v idx) = length idx.
Proof. apply length_map. Qed.

Lemma drop_zeros_length v : length (drop_zeros v) = length v.
Proof. apply length_map. Qed.

Section ArgsortFacts.
Context {A : Type} (lt : A -> A -> bool).

Lemma insert_idx_perm v i l :
  Permutation (insert_idx lt v i l) ((v, i) :: l).
Proof.
  induction l as [|[w j] t IH]; simpl.
  - apply Permutation_refl.
  - destruct (lt v w).
    + apply Permutation_refl.
    + eapply perm_trans; [apply perm_skip, IH | apply perm_swap].
Qed.

Lemma sort_idx_perm l acc :
  Permutation (sort_idx lt l acc) (l ++ acc).
Proof.
  revert acc. induction l as [|[v i] t IH]; intros acc; simpl.
  - apply Permutation_refl.
  - eapply perm_trans; [apply IH|].
    eapply perm_trans; [apply Permutation_app_head, insert_idx_perm|].
    symmetry. apply Permutation_middle.
Qed.

Lemma argsort_perm v :
  Permutation (argsort lt v) (seq 0 (length v)).
Proof.
  unfold argsort.
  eapply perm_trans; [apply Permutation_map, sort_idx_perm|].
  rewrite app_nil_r.
  assert (H : forall (l : list A) (s : list nat),
             length l = length s -> map snd (combine l s) = s).
  { induction l as [|x l IH]; destruct s; simpl; intros E; try discriminate.
    - reflexivity.
    - f_equal. apply IH. now injection E. }
  rewrite H by now rewrite length_seq.
  apply Permutation_refl.
Qed.

Lemma argsort_length v : length (argsort lt v) = length v.
Proof.
  rewrite (Permutation_length (argsort_perm v)). apply length_seq.
Qed.

Lemma argsort_in v j : In j (argsort lt v) <-> j < length v.
Proof.
  split; intros H.
  - apply (Permutation_in _ (argsort_perm v)) in H.
    apply in_seq in H. lia.
  - apply (Permutation_in _ (Permutation_sym (argsort_perm v))).
    apply in_seq. lia.
Qed.

End ArgsortFacts.

(** ** Broadcasting and the score functions on rows of one width *)

Lemma stretch_id w v : length v = w -> stretch w v = v.
Proof. destruct v as [|x [|y t]]; simpl; intros <-; reflexivity. Qed.

Lemma broadcast_dim_same n : broadcast_dim n n = Ok n.
Proof. unfold broadcast_dim. now rewrite Nat.eqb_refl. Qed.

Lemma broadcast_same f a b :
  length a = ncols b -> well_shaped b ->
  broadcast f a b = Ok (mkArray2 (ncols b) (map (zip_with f a) (rows b))).
Proof.
  intros Ha Hb. unfold broadcast. rewrite Ha, broadcast_dim_same. simpl.
  do 2 f_equal. apply map_ext_in. intros r Hr.
  unfold well_shaped in Hb. rewrite Forall_forall in Hb.
  now rewrite !stretch_id by auto.
Qed.

Lemma well_shaped_amap f m : well_shaped m -> well_shaped (amap f m).
Proof.
  unfold well_shaped, amap. simpl. intros H.
  apply Forall_map. revert H. apply Forall_impl.
  intros r Hr. now rewrite length_map.
Qed.

Lemma well_shaped_slice a m : well_shaped m -> well_shaped (slice_from a m).
Proof.
  unfold well_shaped, slice_from. simpl. intros H.
  rewrite <- (firstn_skipn a (rows m)) in H.
  now apply Forall_app in H.
Qed.

Lemma rectangular_well_shaped k ls :
  rectangular k ls = true -> well_shaped (mkArray2 k ls).
Proof.
  unfold rectangular, well_shaped. simpl. rewrite forallb_forall, Forall_forall.
  intros H r Hr. now apply Nat.eqb_eq, H.
Qed.

Lemma hellinger_distance_rows a b :
  length a = ncols b -> well_shaped b ->
  hellinger_distance a b = Ok (map (hellinger_pair a) (rows b)).
Proof.
  intros Ha Hb. unfold hellinger_distance.
  rewrite broadcast_same.
  - simpl. unfold np_sum_axis1. simpl. now rewrite !map_map.
  - now rewrite length_map.
  - now apply well_shaped_amap.
Qed.

Lemma get_topic_score_rows a b :
  length a = ncols b -> well_shaped b ->
  get_topic_score a b = Ok (map (topic_pair a) (rows b)).
Proof.
  intros Ha Hb. unfold get_topic_score.
  rewrite broadcast_same.
  - simpl. unfold np_sum_axis1. simpl. rewrite !map_map. f_equal.
    apply map_ext. intros r. unfold topic_pair. now rewrite !map_map.
  - now rewrite !length_map.
  - now apply well_shaped_amap, well_shaped_amap.
Qed.

Lemma get_term_score_rows a b :
  length a = ncols b -> well_shaped b ->
  get_term_score a b = Ok (map (term_pair a) (rows b)).
Proof.
  intros Ha Hb. unfold get_term_score.
  rewrite broadcast_same by assumption.
  simpl. unfold np_sum_axis1. simpl. now rewrite !map_map.
Qed.

(** ** Reading the gamma file *)

Lemma filter_nonblank k lines :
  1 <= k -> rectangular k lines = true ->
  filter (fun l => negb (is_blank l)) lines = lines.
Proof.
  intros Hk. induction lines as [|r t IH]; simpl; intros H.
  - reflexivity.
  - apply andb_prop in H as [Hr Ht]. apply Nat.eqb_eq in Hr.
    destruct r as [|x r]; simpl in *; [lia|].
    now rewrite IH.
Qed.

Lemma loadtxt_matrix n k lines :
  matrix_file n k lines -> loadtxt lines = Ok (Arr2 (mkArray2 k lines)).
Proof.
  intros (Hn & Hk & Hlen & Hrect). unfold loadtxt.
  rewrite (filter_nonblank k) by (assumption || lia).
  destruct lines as [|r [|r' t]]; simpl in Hlen; try lia.
  assert (Hr : length r = k).
  { simpl in Hrect. apply andb_prop in Hrect as [Hr _]. now apply Nat.eqb_eq. }
  rewrite Hr, Hrect. unfold squeeze. simpl.
  destruct (Nat.eqb_spec k 1); [lia|reflexivity].
Qed.

Lemma normalize_row_length {A : Type} (z : A) add div r :
  length (normalize_row z add div r) = length r.
Proof. apply length_map. Qed.

Lemma well_shaped_theta g : well_shaped g -> well_shaped (theta_of g).
Proof.
  unfold well_shaped, theta_of, normalize_rows. simpl. intros H.
  apply Forall_map. revert H. apply Forall_impl.
  intros r Hr. now rewrite normalize_row_length.
Qed.

Lemma theta_length g : length (rows (theta_of g)) = length (rows g).
Proof. apply length_map. Qed.

Lemma well_shaped_nth m a :
  well_shaped m -> a < length (rows m) -> length (nth a (rows m) []) = ncols m.
Proof.
  unfold well_shaped. rewrite Forall_forall. intros H Ha.
  apply H, nth_In, Ha.
Qed.

(** ** Closed form of write_doc_doc *)

Lemma doc_doc_round_rows theta a :
  well_shaped theta -> a < length (rows theta) ->
  doc_doc_round theta a = Ok (doc_doc_rows (rows theta) a).
Proof.
  intros Hw Ha. unfold doc_doc_round.
  rewrite hellinger_distance_rows.
  - reflexivity.
  - simpl. now apply well_shaped_nth.
  - now apply well_shaped_slice.
Qed.

Lemma write_doc_doc_rows n k lines :
  matrix_file n k lines ->
  write_doc_doc lines
  = Ok (flat_map (doc_doc_rows (rows (theta_of (mkArray2 k lines)))) (seq 0 n)).
Proof.
  intros H. unfold write_doc_doc. rewrite (loadtxt_matrix n k) by assumption.
  cbn [bind]. destruct H as (_ & _ & Hlen & Hrect).
  rewrite theta_length. cbn [rows]. subst n.
  apply for_each_ok. intros a Ha. apply in_seq in Ha.
  apply doc_doc_round_rows.
  - now apply well_shaped_theta, rectangular_well_shaped.
  - rewrite theta_length. cbn [rows]. lia.
Qed.

Lemma doc_doc_rows_length theta a :
  length (doc_doc_rows theta a) = Nat.min 100 (length theta - a).
Proof.
  unfold doc_doc_rows. rewrite generic_generator_length, take_length.
  rewrite length_firstn, repeat_length.
  unfold np_argsort. rewrite argsort_length, drop_zeros_length.
  rewrite length_map, length_skipn. lia.
Qed.

Lemma doc_doc_bound_lt n : 1 <= n -> doc_doc_bound n < doc_doc_count n.
Proof.
  unfold doc_doc_bound, doc_doc_count. intros Hn.
  destruct n as [|m]; [lia|].
  rewrite seq_S, !map_app, !list_sum_app.
  assert (H : forall l, list_sum (map (fun i => Nat.min 100 (S m - 1 - i)) l)
                        <= list_sum (map (fun i => Nat.min 100 (S m - i)) l)).
  { unfold list_sum. induction l as [|x l IH]; cbn [map fold_right]; lia. }
  specialize (H (seq 0 m)).
  unfold list_sum at 2 4. cbn [map fold_right]. lia.
Qed.

(** ** Enumerations *)

Lemma generic_generator_seq {C : Type} (i : nat) (l : list C) (d : C) :
  generic_generator (repeat i (length l)) (seq 0 (length l)) l
  = map (fun j => (i, j, nth j l d)) (seq 0 (length l)).
Proof.
  unfold generic_generator.
  assert (H : forall s,
    combine (combine (repeat i (length l)) (seq s (length l))) l
    = map (fun j => (i, j, nth (j - s) l d)) (seq s (length l))).
  { induction l as [|x l IH]; intros s; simpl.
    - reflexivity.
    - rewrite Nat.sub_diag. f_equal. rewrite IH.
      apply map_ext_in. intros j Hj. apply in_seq in Hj.
      replace (j - s) with (S (j - S s)) by lia. reflexivity. }
  rewrite H. apply map_ext. intros j. now rewrite Nat.sub_0_r.
Qed.

Lemma in_enumerate {A : Type} (l : list A) i x :
  In (i, x) (enumerate l) <-> nth_error l i = Some x.
Proof.
  unfold enumerate.
  assert (H : forall s,
    In (i, x) (combine (seq s (length l)) l)
    <-> s <= i /\ nth_error l (i - s) = Some x).
  { induction l as [|y l IH]; intros s; simpl.
    - split; [tauto|]. intros [_ H]. now destruct (i - s).
    - rewrite IH. split.
      + intros [E|[Hs Hn]].
        * injection E as <- <-. now rewrite Nat.sub_diag.
        * replace (i - s) with (S (i - S s)) by lia. split; [lia|exact Hn].
      + intros [Hs Hn]. destruct (Nat.eq_dec s i) as [->|Hne].
        * rewrite Nat.sub_diag in Hn. left. simpl in Hn. congruence.
        * right. replace (i - s) with (S (i - S s)) in Hn by lia.
          split; [lia|exact Hn]. }
  rewrite H, Nat.sub_0_r. split; [tauto|]. intros; split; [lia|assumption].
Qed.

Lemma enumerate_fst {A : Type} (l : list A) :
  map fst (enumerate l) = seq 0 (length l).
Proof.
  unfold enumerate. generalize 0.
  induction l as [|x l IH]; intros s; simpl; [reflexivity|now rewrite IH].
Qed.

Lemma flat_map_enumerate {A B : Type} (g : nat -> list B) (l : list A) :
  flat_map (fun e => g (fst e)) (enumerate l) = flat_map g (seq 0 (length l)).
Proof.
  rewrite !flat_map_concat_map, <- enumerate_fst, map_map. reflexivity.
Qed.

(** ** Closed form of write_topic_topic *)

(** A parsed beta file read as an array of two axes: [n >= 1] lines of [k]
    numbers each. *)
Lemma asarray_matrix n k lines :
  1 <= n -> length lines = n -> rectangular k lines = true ->
  asarray lines = Ok (Arr2 (mkArray2 k lines)).
Proof.
  intros Hn Hlen Hrect. destruct lines as [|r t]; simpl in Hlen; [lia|].
  unfold asarray.
  assert (Hr : length r = k).
  { simpl in Hrect. apply andb_prop in Hrect as [Hr _]. now apply Nat.eqb_eq. }
  now rewrite Hr, Hrect.
Qed.

Lemma topic_topic_round_rows t i topic :
  well_shaped t -> nth_error (rows t) i = Some topic ->
  topic_topic_round t (i, topic) = Ok (topic_topic_rows (rows t) i).
Proof.
  intros Hw Hi. unfold topic_topic_round.
  assert (Hlt : i < length (rows t)) by (apply nth_error_Some; congruence).
  assert (Hn : nth i (rows t) [] = topic) by now apply nth_error_nth.
  rewrite get_topic_score_rows.
  - cbn [bind]. f_equal.
    rewrite (generic_generator_seq i _ (topic_pair topic [])).
    unfold topic_topic_rows. cbn [rows slice_from].
    rewrite length_map, length_skipn. apply map_ext_in. intros j Hj.
    rewrite map_nth, nth_skipn, Hn. reflexivity.
  - cbn [ncols slice_from]. rewrite <- Hn. now apply well_shaped_nth.
  - now apply well_shaped_slice.
Qed.

Lemma write_topic_topic_rows n k lines :
  1 <= n -> length lines = n -> rectangular k lines = true ->
  write_topic_topic lines = Ok (flat_map (topic_topic_rows lines) (seq 0 n)).
Proof.
  intros Hn Hlen Hrect. unfold write_topic_topic.
  rewrite (asarray_matrix n k) by assumption. cbn [bind rows].
  rewrite <- Hlen, <- flat_map_enumerate.
  apply for_each_ok. intros [i topic] Hin. apply in_enumerate in Hin.
  cbn [fst].
  apply (topic_topic_round_rows (mkArray2 k lines)); [|exact Hin].
  now apply rectangular_well_shaped.
Qed.

(** ** Closed form of write_doc_topic *)

Lemma doc_topic_round_rows gamma_file d doc :
  nth_error gamma_file d = Some doc ->
  doc_topic_round (d, doc) = Ok (doc_topic_rows gamma_file d).
Proof.
  intros H. unfold doc_topic_round, doc_topic_rows.
  rewrite (nth_error_nth _ _ [] H).
  now rewrite (generic_generator_seq d doc nan).
Qed.

Lemma write_doc_topic_rows gamma_file g :
  loadtxt gamma_file = Ok g ->
  write_doc_topic gamma_file
  = Ok (flat_map (doc_topic_rows gamma_file) (seq 0 (length gamma_file))).
Proof.
  intros H. unfold write_doc_topic. rewrite H. cbn [bind].
  rewrite <- flat_map_enumerate.
  apply for_each_ok. intros [d doc] Hin. apply in_enumerate in Hin.
  now apply doc_topic_round_rows.
Qed.

(** ** Rows of the truncated relations *)

Lemma drop_zeros_nth v j : PrimFloat.eqb (nth j (drop_zeros v) nan) 0 = false.
Proof.
  destruct (Nat.lt_ge_cases j (length (drop_zeros v))) as [Hj|Hj].
  - assert (Hin := nth_In (drop_zeros v) nan Hj).
    unfold drop_zeros in Hin at 2. apply in_map_iff in Hin as (x & Hx & _).
    rewrite <- Hx. destruct (PrimFloat.eqb x 0) eqn:E; [reflexivity|exact E].
  - now rewrite nth_overflow.
Qed.

Lemma take_drop_zeros v idx s :
  In s (take (drop_zeros v) idx) -> PrimFloat.eqb s 0 = false.
Proof.
  unfold take. intros H. apply in_map_iff in H as (j & <- & _).
  apply drop_zeros_nth.
Qed.

Lemma generic_generator_in {A B C : Type} (xs : list A) (ys : list B)
  (zs : list C) x y z :
  In (x, y, z) (generic_generator xs ys zs) -> In x xs /\ In y ys /\ In z zs.
Proof.
  unfold generic_generator. intros H.
  assert (Hz := in_combine_r _ _ _ _ H).
  apply in_combine_l in H.
  assert (Hy := in_combine_r _ _ _ _ H).
  apply in_combine_l in H. auto.
Qed.

Lemma doc_doc_round_in theta a rs x y z :
  doc_doc_round theta a = Ok rs -> In (x, y, z) rs ->
  x = a /\ PrimFloat.eqb z 0 = false.
Proof.
  unfold doc_doc_round.
  destruct (hellinger_distance _ _) as [d|e]; cbn [bind]; [|discriminate].
  intros H Hin. injection H as <-.
  apply generic_generator_in in Hin as (Hx & _ & Hz). split.
  - exact (repeat_spec 100 a x Hx).
  - now apply take_drop_zeros in Hz.
Qed.

Lemma term_term_round_in v a rs x y z :
  term_term_round v a = Ok rs -> In (x, y, z) rs ->
  x = a /\ PrimFloat.eqb z 0 = false.
Proof.
  unfold term_term_round.
  destruct (get_term_score _ _) as [d|e]; cbn [bind]; [|discriminate].
  intros H Hin. injection H as <-.
  apply generic_generator_in in Hin as (Hx & _ & Hz). split.
  - now apply repeat_spec in Hx.
  - now apply take_drop_zeros in Hz.
Qed.

Lemma write_doc_doc_in gamma_file rs x y z :
  write_doc_doc gamma_file = Ok rs -> In (x, y, z) rs ->
  PrimFloat.eqb z 0 = false.
Proof.
  unfold write_doc_doc.
  destruct (loadtxt gamma_file) as [[?|?|g|?]|e]; cbn [bind]; try discriminate.
  intros H Hin.
  destruct (for_each_in _ _ _ _ H Hin) as (a & ra & _ & Ha & Hr).
  now destruct (doc_doc_round_in _ _ _ _ _ _ Ha Hr).
Qed.

Lemma asarray_rows ls m : asarray ls = Ok (Arr2 m) -> rows m = ls.
Proof.
  unfold asarray. destruct ls as [|r t]; [discriminate|].
  destruct (rectangular _ _); [|discriminate].
  intros H. now injection H as <-.
Qed.

Lemma write_term_term_in np_exp beta_file no_vocab rs x y z :
  write_term_term np_exp beta_file no_vocab = Ok rs -> In (x, y, z) rs ->
  x < length beta_file /\ PrimFloat.eqb z 0 = false.
Proof.
  unfold write_term_term.
  destruct (asarray beta_file) as [[?|?|m|?]|e] eqn:Ea; cbn [bind];
    try discriminate; try (intros H; injection H as <-; contradiction).
  intros H Hin.
  destruct (for_each_in _ _ _ _ H Hin) as (a & ra & Hs & Ha & Hr).
  destruct (term_term_round_in _ _ _ _ _ _ Ha Hr) as [-> Hz].
  split; [|exact Hz].
  apply in_seq in Hs. cbn [amap rows] in Hs. rewrite length_map in Hs.
  rewrite (asarray_rows _ _ Ea) in Hs. lia.
Qed.

(** ** Closed form of write_term_term *)

Lemma term_term_round_rows v a :
  well_shaped v -> a < length (rows v) ->
  term_term_round v a = Ok (term_term_rows (rows v) a).
Proof.
  intros Hw Ha. unfold term_term_round.
  rewrite get_term_score_rows.
  - reflexivity.
  - simpl. now apply well_shaped_nth.
  - now apply well_shaped_slice.
Qed.

Lemma write_term_term_rows np_exp n k lines no_vocab :
  1 <= n -> length lines = n -> rectangular k lines = true ->
  write_term_term np_exp lines no_vocab
  = Ok (flat_map
          (term_term_rows (map (map (fun x => np_sqrt (np_exp x))) lines))
          (seq 0 n)).
Proof.
  intros Hn Hlen Hrect. unfold write_term_term.
  rewrite (asarray_matrix n k) by assumption. cbn [bind amap rows].
  rewrite length_map. subst n.
  apply for_each_ok. intros a Ha. apply in_seq in Ha.
  apply (term_term_round_rows
           (amap (fun x => np_sqrt (np_exp x)) (mkArray2 k lines))).
  - now apply well_shaped_amap, rectangular_well_shaped.
  - cbn [amap rows]. rewrite length_map. lia.
Qed.

(** ** Sums

    The accumulators of [block_loop] are followed by groups of eight. *)

Lemma list_ind8 {A : Type} (P : list A -> Prop) :
  (forall v, length v < 8 -> P v) ->
  (forall x0 x1 x2 x3 x4 x5 x6 x7 t,
      P t -> P (x0 :: x1 :: x2 :: x3 :: x4 :: x5 :: x6 :: x7 :: t)) ->
  forall v, P v.
Proof.
  intros Hs Hg v.
  assert (H : forall n v, length v <= n -> P v).
  { clear v. induction n as [|n IH]; intros v Hv.
    - apply Hs. lia.
    - destruct v as [|x0 [|x1 [|x2 [|x3 [|x4 [|x5 [|x6 [|x7 t]]]]]]]];
        try (apply Hs; simpl; lia).
      apply Hg, IH. simpl in Hv. lia. }
  apply (H (length v)). lia.
Qed.

Lemma block_loop_short {A : Type} (add : A -> A -> A) r (v : list A) :
  length v < 8 -> block_loop add r v = (r, v).
Proof.
  intros H.
  destruct v as [|x0 [|x1 [|x2 [|x3 [|x4 [|x5 [|x6 [|x7 t]]]]]]]];
    try reflexivity.
  simpl in H. lia.
Qed.

(** A property of the entries that the additions preserve holds of the
    sum: [Q] is the property of the entries and of the sums of groups, [P]
    that of the output entry, which starts at [zero]. *)
Section SumsClosed.
Context {A : Type} (zero : A) (add : A -> A -> A).
Variables P Q : A -> Prop.
Hypothesis Q_zero : Q zero.
Hypothesis Q_add : forall x y, Q x -> Q y -> Q (add x y).
Hypothesis P_zero : P zero.
Hypothesis P_add : forall res c, P res -> Q c -> P (add res c).

Lemma sum_loop_closed v res : Q res -> Forall Q v -> Q (sum_loop add v res).
Proof.
  unfold sum_loop. revert res.
  induction v as [|x v IH]; simpl; intros res Hr Hv; [exact Hr|].
  inversion Hv; subst. apply IH; auto.
Qed.

Lemma block_loop_closed v :
  forall r0 r1 r2 r3 r4 r5 r6 r7 s0 s1 s2 s3 s4 s5 s6 s7 rest,
    Q r0 -> Q r1 -> Q r2 -> Q r3 -> Q r4 -> Q r5 -> Q r6 -> Q r7 ->
    Forall Q v ->
    block_loop add (r0, r1, r2, r3, r4, r5, r6, r7) v
    = (s0, s1, s2, s3, s4, s5, s6, s7, rest) ->
    (Q s0 /\ Q s1 /\ Q s2 /\ Q s3) /\ (Q s4 /\ Q s5 /\ Q s6 /\ Q s7) /\
    Forall Q rest.
Proof.
  induction v as [v Hv|x0 x1 x2 x3 x4 x5 x6 x7 t IH] using list_ind8;
    intros r0 r1 r2 r3 r4 r5 r6 r7 s0 s1 s2 s3 s4 s5 s6 s7 rest
           H0 H1 H2 H3 H4 H5 H6 H7 HF E.
  - rewrite block_loop_short in E by assumption.
    injection E as <- <- <- <- <- <- <- <- <-. auto 10.
  - cbn [block_loop] in E.
    repeat match goal with
           | H : Forall Q (_ :: _) |- _ => inversion H; subst; clear H
           end.
    eapply IH; [..|exact E]; auto.
Qed.

Lemma block_sum_closed v : Forall Q v -> Q (block_sum zero add v).
Proof.
  intros HF. unfold block_sum.
  destruct v as [|x0 [|x1 [|x2 [|x3 [|x4 [|x5 [|x6 [|x7 t]]]]]]]];
    try (apply sum_loop_closed; assumption).
  repeat match goal with
         | H : Forall Q (_ :: _) |- _ => inversion H; subst; clear H
         end.
  destruct (block_loop add (x0, x1, x2, x3, x4, x5, x6, x7) t)
    as [[[[[[[[s0 s1] s2] s3] s4] s5] s6] s7] rest] eqn:E.
  eapply block_loop_closed in E; try eassumption.
  destruct E as ((? & ? & ? & ?) & (? & ? & ? & ?) & ?).
  apply sum_loop_closed; auto.
Qed.

Lemma forall_firstn_skipn n (v : list A) :
  Forall Q v -> Forall Q (firstn n v) /\ Forall Q (skipn n v).
Proof.
  intros H. rewrite <- (firstn_skipn n v) in H. now apply Forall_app in H.
Qed.

Lemma pairwise_sum_closed fuel v :
  Forall Q v -> Q (pairwise_sum zero add fuel v).
Proof.
  revert v. induction fuel as [|fuel IH]; intros v HF; cbn [pairwise_sum];
    destruct (length v <? 8);
    try (apply sum_loop_closed; assumption);
    destruct (length v <=? 128);
    try (apply block_sum_closed; assumption).
  destruct (forall_firstn_skipn (length v / 2 - (length v / 2) mod 8) v HF).
  apply Q_add; apply IH; assumption.
Qed.

Lemma reduce_loop_closed fuel v res :
  P res -> Forall Q v -> P (reduce_loop zero add fuel v res).
Proof.
  revert v res. induction fuel as [|fuel IH]; intros v res Hr HF;
    destruct v as [|x v]; cbn [reduce_loop]; try exact Hr.
  destruct (forall_firstn_skipn bufsize (x :: v) HF).
  apply IH; [|assumption].
  apply P_add; [exact Hr|]. now apply pairwise_sum_closed.
Qed.

Lemma sum_list_closed v : Forall Q v -> P (sum_list zero add v).
Proof. intros H. unfold sum_list. now apply reduce_loop_closed. Qed.

End SumsClosed.

Lemma bufsize_pos : 1 <= bufsize.
Proof. unfold bufsize. assert (H := Nat.pow_nonzero 2 13). lia. Qed.

(** The fuel of the two recursions is never used up: any fuel from the
    length of the list on gives the same sum. *)
Section SumsFuel.
Context {A : Type} (zero : A) (add : A -> A -> A).

Lemma pairwise_sum_fuel f1 f2 (v : list A) :
  length v <= f1 -> length v <= f2 ->
  pairwise_sum zero add f1 v = pairwise_sum zero add f2 v.
Proof.
  revert f2 v. induction f1 as [|f1 IH]; intros f2 v H1 H2.
  - destruct v; [|simpl in H1; lia]. now destruct f2.
  - destruct f2 as [|f2].
    + destruct v; [|simpl in H2; lia]. reflexivity.
    + cbn [pairwise_sum]. destruct (length v <? 8); [reflexivity|].
      destruct (Nat.leb_spec (length v) 128) as [Hle|Hgt]; [reflexivity|].
      set (n2 := length v / 2 - (length v / 2) mod 8).
      assert (Hn2 : 1 <= n2 < length v).
      { unfold n2.
        assert (D := Nat.div_mod_eq (length v) 2).
        assert (M := Nat.mod_upper_bound (length v) 2).
        assert (M8 := Nat.mod_upper_bound (length v / 2) 8). lia. }
      f_equal; apply IH; rewrite ?length_firstn, ?length_skipn; lia.
Qed.

Lemma reduce_loop_fuel f1 f2 (v : list A) res :
  length v <= f1 -> length v <= f2 ->
  reduce_loop zero add f1 v res = reduce_loop zero add f2 v res.
Proof.
  revert f2 v res. induction f1 as [|f1 IH]; intros f2 v res H1 H2.
  - destruct v; [|simpl in H1; lia]. now destruct f2.
  - destruct f2 as [|f2].
    + destruct v; [|simpl in H2; lia]. reflexivity.
    + destruct v as [|x v]; [reflexivity|]. cbn [reduce_loop].
      assert (B := bufsize_pos).
      apply IH; rewrite length_skipn; cbn [length] in *; lia.
Qed.

(** A row of at most [bufsize] entries is one group. *)
Lemma sum_list_one_group (v : list A) :
  v <> [] -> length v <= bufsize ->
  sum_list zero add v = add zero (pairwise_sum zero add (length v) v).
Proof.
  intros Hv Hl. unfold sum_list.
  destruct v as [|x v]; [contradiction|].
  set (w := x :: v) in *.
  change (length w) with (S (length v)) at 1.
  unfold w at 1. cbn [reduce_loop]. fold w.
  rewrite firstn_all2, skipn_all2 by exact Hl.
  now destruct (length v).
Qed.

End SumsFuel.

(** Over the rationals the order of the additions does not matter: the
    pairwise sum is the sum. *)








(** * The claims *)

(** ** Index translation (C1, C2) *)

(** C1.  The specification asks that a surviving candidate at local index
    [j] of the block restricted to entities [>= i] be written as the row
    [(i, i + j, score_j)].  On two topics [[0, 0]] and [[25, 25]] the
    reference 1 has a single candidate, local index 0, that is topic 1
    itself; the row written is [(1, 0, 0.0)], the local index, and not
    [(1, 1, 0.0)].  The row [(0, 1, 0.125)] shows that the score stored
    next to a local index is that of the entity [i + j].  In the same way
    [write_doc_doc], on three documents, stores the score of the documents
    1 and 2 in the row [(1, 1, _)]. *)
Theorem C1_topic_topic_stores_local_index :
  write_topic_topic [[0; 0]; [25; 25]]%float
  = Ok [(0, 0, 0%float); (0, 1, 0.125%float); (1, 0, 0%float)]
  /\ topic_pair [25; 25]%float [25; 25]%float = 0%float
  /\ topic_pair [0; 0]%float [25; 25]%float = 0.125%float
  /\ exists rs,
       write_doc_doc [[1; 2; 1]; [1; 2; 1]; [2; 1; 1]]%float = Ok rs /\
       In (1, 1, hellinger_pair [0.25; 0.5; 0.25]%float
                                [0.5; 0.25; 0.25]%float) rs.
Proof.
  repeat split; try (vm_compute; reflexivity).
  eexists. split; [vm_compute; reflexivity|]. simpl. auto 6.
Qed.

(** C2.  The specification asks that [entity_b >= entity_a] in every row
    of a symmetric relation.  For a gamma file of two documents
    [[1, 3]] and [[3, 1]], [write_doc_doc] inserts for the reference 1 the
    row [(1, 0, inf)]: the second entity is the local index 0 of the slice
    [theta[1:]], smaller than the first. *)
Theorem C2_doc_doc_second_entity_below_first :
  exists rs r,
    write_doc_doc [[1; 3]; [3; 1]]%float = Ok rs /\
    In r rs /\ entity_a r = 1 /\ entity_b r = 0 /\ entity_b r < entity_a r.
Proof.
  eexists. exists (1, 0, infinity). split; [vm_compute; reflexivity|].
  cbn. repeat split; auto.
Qed.

(** ** Self comparisons and zero scores (C3, C5, C4) *)

(** C3, counterexample.  On the two topics [[0, 0]] and [[25, 25]],
    [write_topic_topic] inserts the row [(0, 0, 0.0)], whose two entities
    are equal. *)
Lemma C3_topic_topic_self_pair :
  exists rs r,
    write_topic_topic [[0; 0]; [25; 25]]%float = Ok rs /\
    In r rs /\ entity_a r = entity_b r.
Proof.
  eexists. exists (0, 0, 0%float). split; [vm_compute; reflexivity|].
  cbn. auto.
Qed.

(** C3, amended.  No row of doc_doc or of term_term carries a zero score:
    every zero distance is replaced by [inf] before the selection, and on
    a file of one width both builders succeed.  topic_topic excludes
    nothing: for a beta file of [n >= 1] lines of one width, the builder
    succeeds and, for every topic [i < n], the comparison of topic [i]
    with itself is among the rows inserted for the reference [i]. *)
Theorem C3_zero_scores_and_self_comparisons :
  (forall n k gamma_file,
      matrix_file n k gamma_file ->
      exists rs,
        write_doc_doc gamma_file = Ok rs /\
        forall r, In r rs -> PrimFloat.eqb (score r) 0 = false) /\
  (forall np_exp n k beta_file no_vocab,
      1 <= n -> length beta_file = n -> rectangular k beta_file = true ->
      exists rs,
        write_term_term np_exp beta_file no_vocab = Ok rs /\
        forall r, In r rs -> PrimFloat.eqb (score r) 0 = false) /\
  (forall n k beta_file i,
      1 <= n -> length beta_file = n -> rectangular k beta_file = true ->
      i < n ->
      exists rs b,
        write_topic_topic beta_file = Ok rs /\
        In (i, b, topic_pair (nth i beta_file []) (nth i beta_file [])) rs).
Proof.
  split; [|split].
  - intros n k gamma_file H. eexists.
    split; [apply (write_doc_doc_rows n k), H|].
    intros [[x y] z] Hin.
    exact (write_doc_doc_in _ _ _ _ _ (write_doc_doc_rows n k _ H) Hin).
  - intros np_exp n k beta_file no_vocab Hn Hlen Hrect. eexists.
    split; [apply (write_term_term_rows np_exp n k); assumption|].
    intros [[x y] z] Hin.
    exact (proj2 (write_term_term_in _ _ _ _ _ _ _
                    (write_term_term_rows np_exp n k _ no_vocab Hn Hlen Hrect)
                    Hin)).
  - intros n k beta_file i Hn Hlen Hrect Hi.
    eexists. exists 0. split; [apply (write_topic_topic_rows n k); assumption|].
    apply in_flat_map. exists i. split; [apply in_seq; lia|].
    unfold topic_topic_rows. apply in_map_iff. exists 0. split.
    + now rewrite Nat.add_0_r.
    + apply in_seq. lia.
Qed.

Lemma C3_zero_scores_and_self_comparisons_witness :
  (exists rs,
      write_doc_doc [[1; 3]; [3; 1]]%float = Ok rs /\
      forall r, In r rs -> PrimFloat.eqb (score r) 0 = false) /\
  (exists rs,
      write_term_term (fun x => x) [[1; 4]; [4; 1]]%float 2 = Ok rs /\
      forall r, In r rs -> PrimFloat.eqb (score r) 0 = false) /\
  exists rs b,
    write_topic_topic [[0; 0]; [25; 25]]%float = Ok rs /\
    In (1, b, topic_pair [25; 25]%float [25; 25]%float) rs.
Proof.
  destruct C3_zero_scores_and_self_comparisons as (Hd & Ht & Hs).
  split; [|split].
  - apply (Hd 2 2). unfold matrix_file. repeat split; try reflexivity; lia.
  - apply (Ht (fun x => x) 2 2); try reflexivity; lia.
  - apply (Hs 2 2 [[0; 0]; [25; 25]]%float 1); try reflexivity; lia.
Defined.

(** C5.  A 3x3 gamma file whose documents 0 and 1 are identical.  After
    the normalisation the Hellinger score of documents 0 and 1 is exactly
    0.0, and it is replaced by [inf]; the block of the reference 0 has
    three candidates, fewer than 100, so nothing is cut and the pair
    (0, 1) is inserted, with the score [inf], after the finite score. *)
Theorem C5_identical_documents_are_inserted :
  let gamma := [[1; 2; 1]; [1; 2; 1]; [2; 1; 1]]%float in
  let theta := theta_of (mkArray2 3 gamma) in
  rows theta = [[0.25; 0.5; 0.25]; [0.25; 0.5; 0.25]; [0.5; 0.25; 0.25]]%float /\
  hellinger_pair (nth 0 (rows theta) []) (nth 1 (rows theta) []) = 0%float /\
  doc_doc_round theta 0
  = Ok [(0, 2, hellinger_pair [0.25; 0.5; 0.25]%float [0.5; 0.25; 0.25]%float);
        (0, 0, infinity); (0, 1, infinity)] /\
  exists rs, write_doc_doc gamma = Ok rs /\ In (0, 1, infinity) rs.
Proof.
  cbv zeta. repeat split; try (vm_compute; reflexivity).
  eexists. split; [vm_compute; reflexivity|]. simpl. auto.
Qed.

(** C4.  For a gamma file of [n >= 2] documents over [k >= 2] topics,
    [write_doc_doc] inserts [min(100, n - i)] rows for the reference [i],
    the comparison of [i] with itself included, so the table has
    [sum(min(100, n-i) for i in 0..n-1)] rows, more than the bound
    [sum(min(100, n-1-i) for i in 0..n-1)] of the specification. *)
Theorem C4_doc_doc_row_count n k gamma_file :
  matrix_file n k gamma_file ->
  exists rs,
    write_doc_doc gamma_file = Ok rs /\
    length rs = doc_doc_count n /\
    doc_doc_bound n < length rs.
Proof.
  intros H. eexists. split; [apply (write_doc_doc_rows n k), H|].
  assert (E : length (flat_map
                (doc_doc_rows (rows (theta_of (mkArray2 k gamma_file))))
                (seq 0 n)) = doc_doc_count n).
  { rewrite length_flat_map. unfold doc_doc_count. f_equal.
    apply map_ext. intros a. rewrite doc_doc_rows_length.
    rewrite theta_length. cbn [rows].
    destruct H as (_ & _ & -> & _). reflexivity. }
  split; [exact E|]. rewrite E. apply doc_doc_bound_lt.
  destruct H as (H & _). lia.
Qed.

Lemma C4_doc_doc_row_count_witness :
  exists rs,
    write_doc_doc [[1; 3]; [3; 1]]%float = Ok rs /\
    length rs = 3 /\ doc_doc_bound 2 = 1 /\ doc_doc_bound 2 < length rs.
Proof.
  destruct (C4_doc_doc_row_count 2 2 [[1; 3]; [3; 1]]%float)
    as (rs & H & Hlen & Hlt).
  - unfold matrix_file. repeat split; try reflexivity; lia.
  - exists rs. repeat split; assumption || reflexivity.
Defined.

(** ** The references of term_term (C6) *)

(** C6.  A beta file of one topic over a vocabulary of three terms: the
    loop of [write_term_term] runs over the lines of the file, which are
    topics, so a single row is inserted, for the reference 0, and the
    terms 1 and 2 are references of no row; this for any [np.exp].  In
    general the reference of every row is below the number of lines of the
    beta file, whatever [no_vocab] is. *)
Theorem C6_term_term_references_are_beta_lines :
  (forall np_exp, exists s,
      write_term_term np_exp [[1; 2; 3]]%float 3 = Ok [(0, 0, s)]) /\
  (forall np_exp beta_file no_vocab rs r,
      write_term_term np_exp beta_file no_vocab = Ok rs -> In r rs ->
      entity_a r < length beta_file).
Proof.
  split.
  - intros np_exp. eexists. vm_compute. reflexivity.
  - intros np_exp beta_file no_vocab rs [[x y] z] H Hin.
    exact (proj1 (write_term_term_in _ _ _ _ _ _ _ H Hin)).
Qed.

Lemma C6_term_term_references_are_beta_lines_witness :
  entity_a (0, 0, infinity) < length [[1; 4]]%float.
Proof.
  apply (proj2 C6_term_term_references_are_beta_lines
           (fun x => x) [[1; 4]]%float 2 [(0, 0, infinity)]).
  - vm_compute. reflexivity.
  - simpl. auto.
Defined.

(** ** Mismatched dimensions (C9) *)

Lemma broadcast_mismatch f a b :
  length a <> ncols b -> length a <> 1 -> ncols b <> 1 ->
  broadcast f a b = Raise ValueError.
Proof.
  intros H Ha Hb. unfold broadcast, broadcast_dim.
  destruct (Nat.eqb_spec (length a) (ncols b)); [contradiction|].
  destruct (Nat.eqb_spec (length a) 1); [contradiction|].
  destruct (Nat.eqb_spec (ncols b) 1); [contradiction|].
  reflexivity.
Qed.

Lemma broadcast_one f a b :
  length a = ncols b \/ length a = 1 \/ ncols b = 1 ->
  exists w,
    (length a = 1 \/ w = length a) /\
    broadcast f a b
    = Ok (mkArray2 w (map (fun r => zip_with f (stretch w a) (stretch w r))
                          (rows b))).
Proof.
  intros H. unfold broadcast, broadcast_dim.
  destruct (Nat.eqb_spec (length a) (ncols b)) as [E|E].
  - exists (length a). cbn [bind]. auto.
  - destruct (Nat.eqb_spec (length a) 1) as [E1|E1].
    + exists (ncols b). cbn [bind]. auto.
    + destruct (Nat.eqb_spec (ncols b) 1) as [E2|E2].
      * exists (length a). cbn [bind]. auto.
      * destruct H as [?|[?|?]]; contradiction.
Qed.

Lemma np_dot_mismatch b a :
  length a <> ncols b -> np_dot b a = Raise ValueError.
Proof.
  intros H. unfold np_dot.
  destruct (Nat.eqb_spec (ncols b) (length a)); [congruence|reflexivity].
Qed.

(** C9, counterexample.  A reference of length 1 against a candidate row
    of length 3: the lengths differ and [hellinger_distance] returns a
    score, the single entry being broadcast along the row. *)
Lemma C9_hellinger_broadcasts_length_one :
  let a := [0.5]%float in
  let b := mkArray2 3 [[0.25; 0.5; 0.25]]%float in
  length a <> ncols b /\ exists d, hellinger_distance a b = Ok [d].
Proof.
  cbv zeta. split; [cbn; lia|]. eexists. vm_compute. reflexivity.
Qed.

(** C9, amended.  When the length of [a] differs from the row length of
    [b]: the Bhattacharyya and cosine scores, which go through [np.dot],
    always raise; the Hellinger, Euclidean, KL, topic and term scores,
    which go through broadcasting, raise when neither length is 1, and
    when one of them is 1 they return one score per row of [b]. *)
Theorem C9_dimension_mismatch np_log a b :
  length a <> ncols b ->
  (bhatt_distance np_log a b = Raise ValueError /\
   cosine_distance a b = Raise ValueError) /\
  (length a <> 1 -> ncols b <> 1 ->
   hellinger_distance a b = Raise ValueError /\
   euclidean_distance a b = Raise ValueError /\
   kl_distance np_log a b = Raise ValueError /\
   get_topic_score a b = Raise ValueError /\
   get_term_score a b = Raise ValueError) /\
  (length a = 1 \/ ncols b = 1 ->
   one_score_per_row b (hellinger_distance a b) /\
   one_score_per_row b (euclidean_distance a b) /\
   one_score_per_row b (kl_distance np_log a b) /\
   one_score_per_row b (get_topic_score a b) /\
   one_score_per_row b (get_term_score a b)).
Proof.
  intros H. split; [|split].
  - split.
    + unfold bhatt_distance. rewrite np_dot_mismatch; [reflexivity|].
      cbn [amap ncols]. now rewrite length_map.
    + unfold cosine_distance. now rewrite np_dot_mismatch.
  - intros Ha Hb.
    unfold hellinger_distance, euclidean_distance, kl_distance,
      get_topic_score, get_term_score.
    rewrite !broadcast_mismatch;
      cbn [amap ncols bind]; rewrite ?length_map; auto.
  - intros H1.
    assert (H2 : length a = ncols b \/ length a = 1 \/ ncols b = 1) by tauto.
    unfold one_score_per_row, hellinger_distance, euclidean_distance,
      kl_distance, get_topic_score, get_term_score.
    split; [|split; [|split; [|split]]].
    + destruct (broadcast_one PrimFloat.sub (map np_sqrt a) (amap np_sqrt b))
        as (w & _ & ->); [cbn [amap ncols]; now rewrite length_map|].
      eexists. split; [reflexivity|].
      unfold np_sum_axis1. cbn [amap rows]. now rewrite !length_map.
    + destruct (broadcast_one PrimFloat.sub a b) as (w & _ & ->); [auto|].
      eexists. split; [reflexivity|].
      unfold np_sum_axis1. cbn [amap rows]. now rewrite !length_map.
    + destruct (broadcast_one PrimFloat.sub (map np_log a) (amap np_log b))
        as (w & Hw & ->); [cbn [amap ncols]; now rewrite length_map|].
      cbn [bind]. rewrite length_map in Hw.
      match goal with
      | |- context [broadcast PrimFloat.mul a ?m] =>
          destruct (broadcast_one PrimFloat.mul a m) as (w' & _ & ->);
            [cbn [ncols]; destruct Hw; auto|]
      end.
      eexists. split; [reflexivity|].
      unfold np_sum_axis1. cbn [amap rows]. now rewrite !length_map.
    + destruct (broadcast_one PrimFloat.sub
                  (map np_sqrt (map PrimFloat.abs a))
                  (amap np_sqrt (amap PrimFloat.abs b)))
        as (w & _ & ->); [cbn [amap ncols]; now rewrite !length_map|].
      eexists. split; [reflexivity|].
      unfold np_sum_axis1. cbn [amap rows]. now rewrite !length_map.
    + destruct (broadcast_one PrimFloat.sub a b) as (w & _ & ->); [auto|].
      eexists. split; [reflexivity|].
      unfold np_sum_axis1. cbn [amap rows]. now rewrite !length_map.
Qed.

Lemma C9_dimension_mismatch_witness :
  (bhatt_distance (fun x => x) [0.5; 0.5]%float
     (mkArray2 3 [[0.25; 0.5; 0.25]]%float) = Raise ValueError /\
   cosine_distance [0.5; 0.5]%float
     (mkArray2 3 [[0.25; 0.5; 0.25]]%float) = Raise ValueError) /\
  hellinger_distance [0.5; 0.5]%float
    (mkArray2 3 [[0.25; 0.5; 0.25]]%float) = Raise ValueError /\
  one_score_per_row (mkArray2 3 [[0.25; 0.5; 0.25]]%float)
    (get_term_score [0.5]%float (mkArray2 3 [[0.25; 0.5; 0.25]]%float)).
Proof.
  assert (N2 : length [0.5; 0.5]%float
               <> ncols (mkArray2 3 [[0.25; 0.5; 0.25]]%float)) by (cbn; lia).
  assert (N1 : length [0.5]%float
               <> ncols (mkArray2 3 [[0.25; 0.5; 0.25]]%float)) by (cbn; lia).
  destruct (C9_dimension_mismatch (fun x => x) _ _ N2) as (Hd & Hb & _).
  destruct (C9_dimension_mismatch (fun x => x) _ _ N1) as (_ & _ & Ho).
  split; [exact Hd|split].
  - apply Hb; cbn; lia.
  - apply Ho. left. reflexivity.
Defined.

(** ** doc_topic (C10) *)

Lemma nodup_pairs {A B : Type} (ds : list A) (ts : A -> list B) :
  NoDup ds -> (forall d, NoDup (ts d)) ->
  NoDup (flat_map (fun d => map (pair d) (ts d)) ds).
Proof.
  intros Hds Hts. induction Hds as [|d ds Hd _ IH]; simpl.
  - constructor.
  - apply NoDup_app.
    + apply NoDup_map_NoDup_ForallPairs; [|apply Hts].
      intros x y _ _ E. now injection E.
    + exact IH.
    + intros [d' t] H1 H2. apply in_map_iff in H1 as (t' & E & _).
      injection E as <- <-. apply in_flat_map in H2 as (d'' & Hd'' & H2).
      apply in_map_iff in H2 as (t'' & E & _). injection E as -> _.
      contradiction.
Qed.

(** C10.  When [loadtxt] accepts the gamma file, [write_doc_topic] inserts,
    line after line and within a line in ascending topic order, one row
    [(d, t, x)] for every number [x] read at position [t] of line [d]: the
    rows are exactly the entries of the file as parsed, no pair (d, t)
    occurs twice, and no normalisation is applied. *)
Theorem C10_doc_topic_stores_raw_gamma gamma_file g :
  loadtxt gamma_file = Ok g ->
  exists rs,
    write_doc_topic gamma_file = Ok rs /\
    rs = flat_map (fun d => map (fun t => (d, t, nth t (nth d gamma_file []) nan))
                               (seq 0 (length (nth d gamma_file []))))
                  (seq 0 (length gamma_file)) /\
    (forall d t x,
        In (d, t, x) rs <->
        exists doc, nth_error gamma_file d = Some doc /\ nth_error doc t = Some x) /\
    NoDup (map fst rs).
Proof.
  intros H. eexists. split; [exact (write_doc_topic_rows _ _ H)|].
  split; [reflexivity|]. split.
  - intros d t x. rewrite in_flat_map. split.
    + intros (d' & Hd' & Hin). unfold doc_topic_rows in Hin.
      apply in_map_iff in Hin as (t' & E & Ht'). injection E as -> -> <-.
      apply in_seq in Hd', Ht'. exists (nth d gamma_file []). split.
      * apply nth_error_nth'. lia.
      * apply nth_error_nth'. lia.
    + intros (doc & Hd & Ht). exists d. split.
      * apply in_seq. split; [lia|]. simpl. apply nth_error_Some. congruence.
      * unfold doc_topic_rows. rewrite (nth_error_nth _ _ [] Hd).
        apply in_map_iff. exists t. split.
        -- now rewrite (nth_error_nth _ _ nan Ht).
        -- apply in_seq. split; [lia|]. simpl. apply nth_error_Some. congruence.
  - unfold doc_topic_rows. rewrite flat_map_concat_map, concat_map, map_map.
    rewrite <- flat_map_concat_map.
    erewrite flat_map_ext; [apply (nodup_pairs _
      (fun d => seq 0 (length (nth d gamma_file []))))|].
    + apply seq_NoDup.
    + intros d. apply seq_NoDup.
    + intros d. now rewrite map_map.
Qed.

Lemma C10_doc_topic_stores_raw_gamma_witness :
  exists rs,
    write_doc_topic [[1; 3]; [3; 1]]%float = Ok rs /\
    rs = [(0, 0, 1%float); (0, 1, 3%float); (1, 0, 3%float); (1, 1, 1%float)].
Proof.
  destruct (C10_doc_topic_stores_raw_gamma [[1; 3]; [3; 1]]%float
              (Arr2 (mkArray2 2 [[1; 3]; [3; 1]]%float)))
    as (rs & H & E & _).
  - reflexivity.
  - exists rs. split; [exact H|]. rewrite E. reflexivity.
Defined.

(** ** The order of the sort on binary64 *)

Lemma SFcompare_finite sx mx ex sy my ey :
  SFcompare (S754_finite sx mx ex) (S754_finite sy my ey)
  = Some match sx, sy with
         | true, false => Lt
         | false, true => Gt
         | false, false =>
             match Z.compare ex ey with
             | Lt => Lt | Gt => Gt | Eq => Pos.compare mx my end
         | true, true =>
             match Z.compare ex ey with
             | Lt => Gt | Gt => Lt | Eq => CompOpp (Pos.compare mx my) end
         end.
Proof. reflexivity. Qed.

Ltac key_case :=
  cbn -[Z.compare Pos.compare Z.lt Z.opp];
  split; intro; solve [discriminate | reflexivity | lia].

Lemma np_lt_key x y :
  np_lt x y = true <-> key_lt (sort_key (Prim2SF x)) (sort_key (Prim2SF y)).
Proof.
  unfold np_lt. rewrite FloatAxioms.ltb_spec, !FloatAxioms.eqb_spec.
  unfold SFltb, SFeqb.
  destruct (Prim2SF x) as [sx|sx| |sx mx ex], (Prim2SF y) as [sy|sy| |sy my ey];
    rewrite ?SFcompare_finite;
    try (destruct sx); try (destruct sy);
    rewrite ?Z.compare_refl, ?Pos.compare_refl;
    try key_case;
    destruct (Z.compare_spec ex ey); destruct (Pos.compare_spec mx my);
    key_case.
Qed.

Lemma np_lt_asym x y : np_lt x y = true -> np_lt y x = false.
Proof.
  intros H. apply np_lt_key in H.
  destruct (np_lt y x) eqn:E; [|reflexivity].
  apply np_lt_key in E. unfold key_lt in *.
  destruct (sort_key (Prim2SF x)) as [[? ?] ?],
           (sort_key (Prim2SF y)) as [[? ?] ?].
  lia.
Qed.

Lemma np_lt_trans x y z :
  np_lt x y = true -> np_lt y z = true -> np_lt x z = true.
Proof.
  rewrite !np_lt_key. unfold key_lt.
  destruct (sort_key (Prim2SF x)) as [[? ?] ?],
           (sort_key (Prim2SF y)) as [[? ?] ?],
           (sort_key (Prim2SF z)) as [[? ?] ?].
  lia.
Qed.

(** ** argsort sorts *)

Section ArgsortSorted.
Context {A : Type} (lt : A -> A -> bool).
Hypothesis lt_asym : forall x y, lt x y = true -> lt y x = false.
Hypothesis lt_trans : forall x y z, lt x y = true -> lt y z = true -> lt x z = true.


Lemma insert_idx_sorted v i l :
  StronglySorted (pair_le lt) l -> StronglySorted (pair_le lt) (insert_idx lt v i l).
Proof.
  induction l as [|[w j] t IH]; simpl; intros Hs.
  - repeat constructor.
  - apply StronglySorted_inv in Hs as [Hs Hall].
    destruct (lt v w) eqn:E.
    + constructor; [now constructor|].
      constructor; [exact (lt_asym _ _ E)|].
      revert Hall. apply Forall_impl. intros [u k]. unfold pair_le. simpl.
      intros Hu. destruct (lt u v) eqn:Euv; [|reflexivity].
      rewrite (lt_trans _ _ _ Euv E) in Hu. discriminate.
    + constructor; [now apply IH|].
      apply Forall_forall. intros q Hq.
      apply (Permutation_in _ (insert_idx_perm lt v i t)) in Hq.
      destruct Hq as [<-|Hq]; [exact E|].
      rewrite Forall_forall in Hall. now apply Hall.
Qed.

Lemma sort_idx_sorted l acc :
  StronglySorted (pair_le lt) acc -> StronglySorted (pair_le lt) (sort_idx lt l acc).
Proof.
  revert acc. induction l as [|[v i] t IH]; simpl; intros acc Hs.
  - exact Hs.
  - now apply IH, insert_idx_sorted.
Qed.

Lemma in_combine_seq (v : list A) w i :
  In (w, i) (combine v (seq 0 (length v))) -> nth_error v i = Some w.
Proof.
  assert (H : forall s, In (w, i) (combine v (seq s (length v))) ->
                        s <= i /\ nth_error v (i - s) = Some w).
  { induction v as [|x v IH]; intros s; simpl.
    - tauto.
    - intros [E|Hin].
      + injection E as <- <-. now rewrite Nat.sub_diag.
      + destruct (IH _ Hin) as [Hs Hn].
        replace (i - s) with (S (i - S s)) by lia. split; [lia|exact Hn]. }
  intros Hin. destruct (H 0 Hin) as [_ Hn]. now rewrite Nat.sub_0_r in Hn.
Qed.

Lemma argsort_sorted (v : list A) (d : A) :
  StronglySorted (fun i j => lt (nth j v d) (nth i v d) = false) (argsort lt v).
Proof.
  unfold argsort.
  assert (Hs : StronglySorted (pair_le lt) (sort_idx lt (combine v (seq 0 (length v))) []))
    by (apply sort_idx_sorted; constructor).
  assert (Hv : Forall (fun p => nth (snd p) v d = fst p)
                      (sort_idx lt (combine v (seq 0 (length v))) [])).
  { apply Forall_forall. intros [w i] Hin.
    apply (Permutation_in _ (sort_idx_perm lt _ _)) in Hin.
    rewrite app_nil_r in Hin. apply in_combine_seq in Hin.
    simpl. now apply nth_error_nth. }
  induction Hs as [|p l Hs IH Hall]; simpl.
  - constructor.
  - inversion Hv as [|? ? Hp Hl]; subst. constructor; [now apply IH|].
    apply Forall_map. rewrite Forall_forall in *.
    intros q Hq. rewrite Hp, (Hl q Hq). now apply Hall.
Qed.

End ArgsortSorted.

Lemma strongly_sorted_app {A : Type} (R : A -> A -> Prop) l1 l2 :
  StronglySorted R (l1 ++ l2) ->
  StronglySorted R l2 /\ forall x y, In x l1 -> In y l2 -> R x y.
Proof.
  induction l1 as [|a l1 IH]; simpl; intros H.
  - split; [exact H|]. intros x y [].
  - apply StronglySorted_inv in H as [Hs Hall].
    destruct (IH Hs) as [H2 Hx]. split; [exact H2|].
    intros x y [<-|Hin] Hy.
    + rewrite Forall_forall in Hall. apply Hall, in_or_app. now right.
    + now apply Hx.
Qed.

Lemma np_argsort_sorted (v : list float) :
  StronglySorted (fun i j => np_le (nth i v nan) (nth j v nan) = true)
                 (np_argsort v).
Proof.
  unfold np_le, np_argsort.
  assert (H := argsort_sorted np_lt np_lt_asym np_lt_trans v nan).
  induction H as [|i l Hs IH Hall]; constructor; [exact IH|].
  revert Hall. apply Forall_impl. intros j Hj. now rewrite Hj.
Qed.

(** ** Topic titles (C7) *)

Lemma for_each_forall2 {A B : Type} (body : A -> result (list B))
  (P : A -> B -> Prop) l :
  (forall x, In x l -> exists y, body x = Ok [y] /\ P x y) ->
  exists ys, for_each body l = Ok ys /\ Forall2 P l ys.
Proof.
  induction l as [|x t IH]; intros H; simpl.
  - exists []. split; [reflexivity|constructor].
  - destruct (H x (or_introl eq_refl)) as (y & -> & Hy).
    destruct IH as (ys & -> & Hys); [intros z Hz; apply H; now right|].
    exists (y :: ys). split; [reflexivity|now constructor].
Qed.

Lemma subscript_ok {A : Type} (l : list A) i :
  i < length l -> exists x, subscript l i = Ok x /\ nth_error l i = Some x.
Proof.
  intros H. unfold subscript. destruct (nth_error l i) as [x|] eqn:E.
  - now exists x.
  - apply nth_error_None in E. lia.
Qed.

Lemma topics_round_top3 vocab topic :
  3 <= length topic -> length topic <= length vocab ->
  exists title, topics_round vocab topic = Ok [title] /\
                top3_title vocab topic title.
Proof.
  intros H3 Hv. unfold topics_round.
  assert (Hlen : length (rev (np_argsort topic)) = length topic)
    by (rewrite length_rev; apply argsort_length).
  destruct (rev (np_argsort topic)) as [|i0 [|i1 [|i2 rest]]] eqn:E;
    simpl in Hlen; try lia.
  assert (Eidx : np_argsort topic = rev rest ++ [i2; i1; i0]).
  { rewrite <- (rev_involutive (np_argsort topic)), E. simpl.
    now rewrite <- !app_assoc. }
  assert (Hin : forall j, In j (rev rest ++ [i2; i1; i0]) <-> j < length topic).
  { intros j. rewrite <- Eidx. apply argsort_in. }
  assert (H0 : i0 < length topic) by (apply Hin, in_or_app; simpl; auto).
  assert (H1 : i1 < length topic) by (apply Hin, in_or_app; simpl; auto).
  assert (H2 : i2 < length topic) by (apply Hin, in_or_app; simpl; auto).
  assert (Hnd : NoDup (rev rest ++ [i2; i1; i0])).
  { rewrite <- Eidx.
    apply (Permutation_NoDup (Permutation_sym (argsort_perm np_lt topic))).
    apply seq_NoDup. }
  assert (Hs := np_argsort_sorted topic). rewrite Eidx in Hs.
  apply strongly_sorted_app in Hs as [Hs3 Hrest].
  apply StronglySorted_inv in Hs3 as [Hs2 Hall2].
  apply StronglySorted_inv in Hs2 as [_ Hall1].
  inversion Hall2 as [|? ? H21 _]; subst.
  inversion Hall1 as [|? ? H10 _]; subst.
  destruct (subscript_ok vocab i0) as (t0 & S0 & N0); [lia|].
  destruct (subscript_ok vocab i1) as (t1 & S1 & N1); [lia|].
  destruct (subscript_ok vocab i2) as (t2 & S2 & N2); [lia|].
  exists (title_format t0 t1 t2). split.
  - unfold subscript at 1 3 5. simpl nth_error. cbn [bind].
    rewrite S0. cbn [bind]. rewrite S1. cbn [bind]. rewrite S2. reflexivity.
  - exists i0, i1, i2, t0, t1, t2. repeat split; try assumption.
    + assert (Hnd3 := NoDup_app_remove_l _ _ Hnd).
      inversion Hnd3 as [|? ? Ha Hb]; subst.
      inversion Hb as [|? ? Hc Hd]; subst.
      simpl in Ha, Hc. repeat constructor; simpl; intuition congruence.
    + intros j Hj Hj0 Hj1 Hj2. apply Hin in Hj.
      apply in_app_or in Hj as [Hj|Hj].
      * apply Hrest; [exact Hj|simpl; auto].
      * simpl in Hj. intuition congruence.
Qed.



(** * Further properties of the builders *)

(** ** Blocks of rows *)

Lemma for_each_blocks {A B : Type} (body : A -> result (list B)) l rs :
  for_each body l = Ok rs <->
  exists blocks, rs = concat blocks /\ Forall2 (fun x b => body x = Ok b) l blocks.
Proof.
  revert rs. induction l as [|x t IH]; simpl; intros rs.
  - split.
    + intros H. injection H as <-. exists []. split; [reflexivity|constructor].
    + intros (blocks & -> & H). inversion H. reflexivity.
  - split.
    + destruct (body x) as [rx|e] eqn:Ex; simpl; [|discriminate].
      destruct (for_each body t) as [rt|e] eqn:Et; simpl; [|discriminate].
      intros H. injection H as <-.
      destruct (proj1 (IH rt) eq_refl) as (blocks & -> & Hb).
      exists (rx :: blocks). split; [reflexivity|now constructor].
    + intros (blocks & -> & H). inversion H as [|? b ? bs Hx Ht]; subst.
      rewrite Hx. simpl.
      rewrite (proj2 (IH (concat bs))) by (exists bs; auto).
      reflexivity.
Qed.

Lemma for_each_raise {A B : Type} (body : A -> result (list B)) (e : exn) l :
  (forall x e', body x = Raise e' -> e' = e) ->
  forall e', for_each body l = Raise e' -> e' = e.
Proof.
  intros Hb. induction l as [|x t IH]; simpl; intros e' H.
  - discriminate.
  - destruct (body x) as [rx|e1] eqn:Ex; simpl in H.
    + destruct (for_each body t) as [rt|e2]; simpl in H; [discriminate|].
      injection H as <-. now apply IH.
    + injection H as <-. now apply (Hb x).
Qed.

Lemma for_each_raise_in {A B : Type} (body : A -> result (list B)) l :
  (exists x, In x l /\ exists e, body x = Raise e) ->
  exists e, for_each body l = Raise e.
Proof.
  induction l as [|x t IH]; simpl; intros (y & Hy & e & He).
  - destruct Hy.
  - destruct (body x) as [rx|e1] eqn:Ex; simpl; [|now exists e1].
    destruct Hy as [->|Hy]; [congruence|].
    destruct IH as (e2 & ->); [exists y; eauto|]. now exists e2.
Qed.

(** ** The selection of the 100 smallest scores *)

Lemma strongly_sorted_app_l {A : Type} (R : A -> A -> Prop) l1 l2 :
  StronglySorted R (l1 ++ l2) -> StronglySorted R l1.
Proof.
  induction l1 as [|a l1 IH]; simpl; intros H.
  - constructor.
  - apply StronglySorted_inv in H as [Hs Hall]. constructor; [now apply IH|].
    now apply Forall_app in Hall.
Qed.

Lemma strongly_sorted_map {A B : Type} (R : A -> A -> Prop)
  (R' : B -> B -> Prop) (f : A -> B) l :
  (forall x y, R x y -> R' (f x) (f y)) ->
  StronglySorted R l -> StronglySorted R' (map f l).
Proof.
  intros Hf H. induction H as [|a l Hs IH Hall]; simpl; constructor.
  - exact IH.
  - apply Forall_map. revert Hall. apply Forall_impl. intros y. apply Hf.
Qed.

Lemma selection_spec (v : list float) :
  let sel := firstn 100 (np_argsort v) in
  NoDup sel /\
  (forall i, In i sel -> i < length v) /\
  length sel = Nat.min 100 (length v) /\
  ascending (take v sel) /\
  (forall i j, In i sel -> j < length v -> ~ In j sel ->
               np_le (nth i v nan) (nth j v nan) = true).
Proof.
  intros sel.
  assert (E : np_argsort v = sel ++ skipn 100 (np_argsort v))
    by (symmetry; apply firstn_skipn).
  assert (Hs := np_argsort_sorted v). rewrite E in Hs.
  assert (Hnd : NoDup (np_argsort v)).
  { apply (Permutation_NoDup (Permutation_sym (argsort_perm np_lt v))).
    apply seq_NoDup. }
  split; [|split; [|split; [|split]]].
  - rewrite E in Hnd. now apply NoDup_app_remove_r in Hnd.
  - intros i Hi. apply (argsort_in np_lt v). fold np_argsort in *.
    rewrite E. apply in_or_app. now left.
  - unfold sel. rewrite length_firstn. unfold np_argsort.
    now rewrite argsort_length.
  - unfold ascending, take. apply strongly_sorted_app_l in Hs.
    revert Hs. apply strongly_sorted_map. auto.
  - intros i j Hi Hj Hn.
    apply strongly_sorted_app in Hs as [_ Hx]. apply Hx; [exact Hi|].
    apply (argsort_in np_lt v) in Hj. fold np_argsort in Hj.
    rewrite E in Hj. apply in_app_or in Hj as [Hj|Hj]; [contradiction|exact Hj].
Qed.

Lemma generic_generator_take {A : Type} (a : A) n (v : list float) idx :
  length idx <= n ->
  generic_generator (repeat a n) idx (take v idx)
  = map (fun j => (a, j, nth j v nan)) idx.
Proof.
  unfold generic_generator, take. revert n.
  induction idx as [|j idx IH]; intros n Hn; simpl.
  - now destruct (repeat a n).
  - destruct n as [|n]; simpl in *; [lia|].
    f_equal. apply IH. lia.
Qed.

Lemma drop_zeros_remap v : drop_zeros v = map remap_zero v.
Proof. reflexivity. Qed.

Lemma drop_zeros_entry (f : list float -> float) (l : list (list float)) j :
  j < length l ->
  nth j (drop_zeros (map f l)) nan = remap_zero (f (nth j l [])).
Proof.
  intros Hj. rewrite drop_zeros_remap, map_map.
  rewrite (nth_indep _ nan (remap_zero (f []))) by now rewrite length_map.
  now rewrite (map_nth (fun x => remap_zero (f x))).
Qed.

Lemma top_rows_spec (a m : nat) (v : list float) :
  Nat.min 100 (length v) <= m ->
  let sel := firstn 100 (np_argsort v) in
  let block := generic_generator (repeat a m) sel (take v sel) in
  length block = Nat.min 100 (length v) /\
  NoDup (map entity_b block) /\
  (forall x j s, In (x, j, s) block -> x = a /\ j < length v /\ s = nth j v nan) /\
  ascending (map score block) /\
  (forall j r, j < length v -> ~ In j (map entity_b block) -> In r block ->
               np_le (score r) (nth j v nan) = true).
Proof.
  intros Hm sel block.
  destruct (selection_spec v) as (Hnd & Hlt & Hlen & Hasc & Hmin).
  fold sel in Hnd, Hlt, Hlen, Hasc, Hmin.
  assert (Eb : block = map (fun j => (a, j, nth j v nan)) sel).
  { unfold block. apply generic_generator_take. lia. }
  assert (Ee : map entity_b block = sel).
  { rewrite Eb, map_map. unfold entity_b. simpl. apply map_id. }
  assert (Es : map score block = take v sel).
  { rewrite Eb, map_map. reflexivity. }
  split; [|split; [|split; [|split]]].
  - now rewrite Eb, length_map.
  - now rewrite Ee.
  - intros x j s Hin. rewrite Eb in Hin.
    apply in_map_iff in Hin as (i & E & Hi). injection E as <- <- <-. auto.
  - now rewrite Es.
  - intros j r Hj Hn Hin. rewrite Ee in Hn. rewrite Eb in Hin.
    apply in_map_iff in Hin as (i & <- & Hi). unfold score. simpl.
    now apply Hmin.
Qed.

(** ** write_doc_doc: what is stored, and which candidates are kept *)

Lemma top_rows_map (a m : nat) (v : list float) :
  Nat.min 100 (length v) <= m ->
  generic_generator (repeat a m) (firstn 100 (np_argsort v))
                    (take v (firstn 100 (np_argsort v)))
  = map (fun j => (a, j, nth j v nan)) (firstn 100 (np_argsort v)).
Proof.
  intros Hm. apply generic_generator_take.
  destruct (selection_spec v) as (_ & _ & Hlen & _). cbv zeta in Hlen. lia.
Qed.

Lemma top_rows_all (a m : nat) (v : list float) j :
  Nat.min 100 (length v) <= m -> length v <= 100 -> j < length v ->
  In (a, j, nth j v nan)
     (generic_generator (repeat a m) (firstn 100 (np_argsort v))
                        (take v (firstn 100 (np_argsort v)))).
Proof.
  intros Hm Hv Hj. rewrite top_rows_map by assumption.
  apply in_map_iff. exists j. split; [reflexivity|].
  rewrite firstn_all2.
  - now apply (argsort_in np_lt).
  - unfold np_argsort. now rewrite argsort_length.
Qed.

(** X1.  For a gamma file of [n >= 2] documents over [k >= 2] topics,
    [write_doc_doc] succeeds and no pair (first entity, second entity)
    occurs twice among its rows.  Every row has a reference [a < n] as
    first entity and a position [j] of the block [theta[a:]] as second
    entity, and the score stored with them is the Hellinger score of the
    documents [a] and [a + j] of theta, replaced by [inf] when it is zero.
    When the block of a reference has at most 100 documents, every
    position of the block has its row. *)
Theorem doc_doc_row_contents n k gamma_file :
  matrix_file n k gamma_file ->
  let theta := rows (theta_of (mkArray2 k gamma_file)) in
  let dist a j :=
    remap_zero (hellinger_pair (nth a theta []) (nth (a + j) theta [])) in
  exists rs,
    write_doc_doc gamma_file = Ok rs /\
    NoDup (map fst rs) /\
    (forall a j s, In (a, j, s) rs -> a < n /\ j < n - a /\ s = dist a j) /\
    (forall a j, a < n -> n - a <= 100 -> j < n - a -> In (a, j, dist a j) rs).
Proof.
  intros H theta dist.
  assert (Hn : length theta = n).
  { unfold theta. rewrite theta_length. now destruct H as (_ & _ & ? & _). }
  pose (v a := drop_zeros (map (hellinger_pair (nth a theta [])) (skipn a theta))).
  assert (Hv : forall a, length (v a) = n - a).
  { intros a. unfold v.
    now rewrite drop_zeros_length, length_map, length_skipn, Hn. }
  assert (He : forall a j, j < n - a -> nth j (v a) nan = dist a j).
  { intros a j Hj. unfold v, dist.
    rewrite drop_zeros_entry by (rewrite length_skipn; lia).
    now rewrite nth_skipn. }
  assert (Hb : forall a, doc_doc_rows theta a
                         = map (fun j => (a, j, nth j (v a) nan))
                               (firstn 100 (np_argsort (v a)))).
  { intros a. apply top_rows_map. lia. }
  eexists. split; [exact (write_doc_doc_rows n k _ H)|]. fold theta.
  split; [|split].
  - rewrite flat_map_concat_map, concat_map, map_map, <- flat_map_concat_map.
    erewrite flat_map_ext;
      [apply (nodup_pairs _ (fun a => firstn 100 (np_argsort (v a))))|].
    + apply seq_NoDup.
    + intros a. now destruct (selection_spec (v a)) as (Hnd & _).
    + intros a. now rewrite Hb, map_map.
  - intros a j s Hin. apply in_flat_map in Hin as (a' & Ha' & Hin).
    apply in_seq in Ha'.
    destruct (top_rows_spec a' 100 (v a')) as (_ & _ & Hc & _); [lia|].
    destruct (Hc a j s Hin) as (-> & Hj & ->).
    rewrite Hv in Hj. repeat split; try lia. now apply He.
  - intros a j Ha Hsmall Hj. apply in_flat_map. exists a.
    split; [apply in_seq; lia|].
    rewrite <- He by assumption.
    apply (top_rows_all a 100 (v a) j); rewrite ?Hv; lia.
Qed.

Lemma doc_doc_row_contents_witness :
  exists rs,
    write_doc_doc [[1; 3]; [3; 1]]%float = Ok rs /\
    NoDup (map fst rs) /\
    forall a j s, In (a, j, s) rs -> a < 2 /\ j < 2 - a.
Proof.
  destruct (doc_doc_row_contents 2 2 [[1; 3]; [3; 1]]%float)
    as (rs & H & Hnd & Hr & _).
  - unfold matrix_file. repeat split; try reflexivity; lia.
  - exists rs. split; [exact H|]. split; [exact Hnd|].
    intros a j s Hin. destruct (Hr a j s Hin) as (? & ? & _). auto.
Defined.



(** ** write_term_term: which lines are compared, and which are kept *)

Lemma nth_error_map_seq {B : Type} (f : nat -> B) n a b :
  nth_error (map f (seq 0 n)) a = Some b -> a < n /\ b = f a.
Proof.
  intros H.
  assert (Ha : a < length (map f (seq 0 n)))
    by (apply nth_error_Some; congruence).
  rewrite length_map, length_seq in Ha.
  split; [exact Ha|].
  rewrite nth_error_map, (nth_error_nth' _ 0) in H by (rewrite length_seq; lia).
  rewrite seq_nth in H by lia. simpl in H. congruence.
Qed.

(** X3.  For a beta file of [n >= 1] lines of one width,
    [write_term_term] succeeds and inserts one block of rows per line [a]
    of the file, in the order of the lines.  The rows of the block of [a]
    carry [a] and a position [j] of the block [v[a:]], no position twice,
    with the sum of squared differences of the lines [a] and [a + j] of
    [v = exp(beta) ** .5] ([inf] when it is zero); they are
    [min(100, n - a)] rows, in ascending order of score (in the order of
    the sort, NaN last), and no candidate that is left out has a score
    below that of a row that is kept. *)
Theorem term_term_keeps_the_nearest np_exp n k beta_file no_vocab :
  1 <= n -> length beta_file = n -> rectangular k beta_file = true ->
  let v := map (map (fun x => np_sqrt (np_exp x))) beta_file in
  let dist a j := remap_zero (term_pair (nth a v []) (nth (a + j) v [])) in
  exists blocks,
    write_term_term np_exp beta_file no_vocab = Ok (concat blocks) /\
    length blocks = n /\
    forall a block, nth_error blocks a = Some block ->
      length block = Nat.min 100 (n - a) /\
      NoDup (map entity_b block) /\
      (forall x j s, In (x, j, s) block -> x = a /\ j < n - a /\ s = dist a j) /\
      ascending (map score block) /\
      (forall j r, j < n - a -> ~ In j (map entity_b block) -> In r block ->
                   np_le (score r) (dist a j) = true).
Proof.
  intros Hn Hlen Hrect v dist.
  exists (map (term_term_rows v) (seq 0 n)).
  split; [|split].
  - rewrite <- flat_map_concat_map.
    now apply (write_term_term_rows np_exp n k).
  - now rewrite length_map, length_seq.
  - intros a block Hb. apply nth_error_map_seq in Hb as (Ha & ->).
    assert (Hv : length v = n) by (unfold v; now rewrite length_map).
    set (sc := drop_zeros (map (term_pair (nth a v [])) (skipn a v))).
    assert (Hsc : length sc = n - a).
    { unfold sc. now rewrite drop_zeros_length, length_map, length_skipn, Hv. }
    assert (He : forall j, j < n - a -> nth j sc nan = dist a j).
    { intros j Hj. unfold sc, dist.
      rewrite drop_zeros_entry by (rewrite length_skipn; lia).
      now rewrite nth_skipn. }
    assert (Hspec := top_rows_spec a (length sc) sc (Nat.le_min_r _ _)).
    cbv zeta in Hspec.
    change (generic_generator (repeat a (length sc)) (firstn 100 (np_argsort sc))
              (take sc (firstn 100 (np_argsort sc))))
      with (term_term_rows v a) in Hspec.
    destruct Hspec as (Hl & Hnd & Hin & Hasc & Hmin).
    split; [now rewrite Hl, Hsc|]. split; [exact Hnd|].
    split; [|split; [exact Hasc|]].
    + intros x j s Hr. destruct (Hin x j s Hr) as (-> & Hj & ->).
      rewrite Hsc in Hj. repeat split; auto.
    + intros j r Hj Hn' Hr. rewrite <- He by assumption.
      apply Hmin; [now rewrite Hsc|assumption|assumption].
Qed.

Lemma term_term_keeps_the_nearest_witness :
  exists blocks,
    write_term_term (fun x => x) [[1; 4]; [4; 1]]%float 2 = Ok (concat blocks) /\
    length blocks = 2.
Proof.
  destruct (term_term_keeps_the_nearest (fun x => x) 2 2
              [[1; 4]; [4; 1]]%float 2) as (blocks & H & Hl & _);
    try reflexivity; try lia.
  exists blocks. auto.
Defined.

(** ** write_topic_topic: the whole upper triangle *)

Lemma triangle_sum n :
  list_sum (map (fun i => n - i) (seq 0 n)) = triangle n.
Proof.
  unfold triangle.
  assert (H : 2 * list_sum (map (fun i => n - i) (seq 0 n)) = n * (n + 1)).
  { induction n as [|n IH].
    - reflexivity.
    - cbn [seq map]. rewrite <- seq_shift, map_map.
      change (list_sum (?x :: ?l)) with (x + list_sum l).
      rewrite (map_ext (fun i => S n - S i) (fun i => n - i)) by reflexivity.
      lia. }
  rewrite <- H, Nat.mul_comm. symmetry. now apply Nat.div_mul.
Qed.

(** X4.  For a beta file of [n >= 1] lines of one width,
    [write_topic_topic] inserts [n (n + 1) / 2] rows, none left out and no
    pair twice: for every topic [i] one row per position [j] of the block
    [topics[i:]], in ascending order of [j], with the topic score of the
    topics [i] and [i + j]. *)
Theorem topic_topic_whole_triangle n k beta_file :
  1 <= n -> length beta_file = n -> rectangular k beta_file = true ->
  exists rs,
    write_topic_topic beta_file = Ok rs /\
    length rs = triangle n /\
    NoDup (map fst rs) /\
    forall i j s,
      In (i, j, s) rs <->
      i + j < n /\
      s = topic_pair (nth i beta_file []) (nth (i + j) beta_file []).
Proof.
  intros Hn Hlen Hrect. eexists.
  split; [now apply (write_topic_topic_rows n k)|].
  split; [|split].
  - rewrite length_flat_map, <- triangle_sum. f_equal. apply map_ext.
    intros i. unfold topic_topic_rows. rewrite length_map, length_seq.
    now rewrite Hlen.
  - unfold topic_topic_rows.
    rewrite flat_map_concat_map, concat_map, map_map, <- flat_map_concat_map.
    erewrite flat_map_ext;
      [apply (nodup_pairs _ (fun i => seq 0 (length beta_file - i)))|].
    + apply seq_NoDup.
    + intros i. apply seq_NoDup.
    + intros i. now rewrite map_map.
  - intros i j s. rewrite in_flat_map. unfold topic_topic_rows. split.
    + intros (i' & Hi' & Hin). apply in_map_iff in Hin as (j' & E & Hj').
      injection E as -> -> <-. apply in_seq in Hi', Hj'. split; [lia|reflexivity].
    + intros (Hij & ->). exists i. split; [apply in_seq; lia|].
      apply in_map_iff. exists j. split; [reflexivity|apply in_seq; lia].
Qed.

Lemma topic_topic_whole_triangle_witness :
  exists rs,
    write_topic_topic [[0; 0]; [25; 25]]%float = Ok rs /\ length rs = triangle 2.
Proof.
  destruct (topic_topic_whole_triangle 2 2 [[0; 0]; [25; 25]]%float)
    as (rs & H & Hl & _); try reflexivity; try lia.
  exists rs. auto.
Defined.

(** ** write_topic_term: every weight, heaviest first *)

Lemma map_seq_nth {A B : Type} (f : A -> B) (l : list A) (d : A) :
  map (fun i => f (nth i l d)) (seq 0 (length l)) = map f l.
Proof.
  induction l as [|x l IH]; simpl; [reflexivity|].
  f_equal. rewrite <- seq_shift, map_map. exact IH.
Qed.

Lemma topic_term_round_rows beta_file t topic :
  nth_error beta_file t = Some topic ->
  topic_term_round (t, topic)
  = Ok (map (fun j => (t, j, nth j (nth t beta_file []) nan))
            (rev (np_argsort (nth t beta_file [])))).
Proof.
  intros H. unfold topic_term_round. rewrite (nth_error_nth _ _ [] H).
  f_equal. apply generic_generator_take.
  rewrite length_rev. unfold np_argsort. now rewrite argsort_length.
Qed.

Lemma write_topic_term_rows beta_file :
  write_topic_term beta_file
  = Ok (flat_map (fun t => map (fun j => (t, j, nth j (nth t beta_file []) nan))
                               (rev (np_argsort (nth t beta_file []))))
                 (seq 0 (length beta_file))).
Proof.
  unfold write_topic_term. rewrite <- flat_map_enumerate.
  apply for_each_ok. intros [t topic] Hin. apply in_enumerate in Hin.
  now apply topic_term_round_rows.
Qed.

(** X5.  [write_topic_term] never raises, whatever the lengths of the
    lines.  It inserts one row per weight of the beta file: the row
    [(t, j, s)] is inserted exactly when [s] is the weight at position [j]
    of line [t], and no pair (t, j) occurs twice, so the second entity is
    the term id itself. *)
Theorem topic_term_every_weight_once beta_file :
  exists rs,
    write_topic_term beta_file = Ok rs /\
    length rs = list_sum (map (fun topic => length topic) beta_file) /\
    NoDup (map fst rs) /\
    forall t j s,
      In (t, j, s) rs <->
      exists topic, nth_error beta_file t = Some topic /\ nth_error topic j = Some s.
Proof.
  eexists. split; [apply write_topic_term_rows|]. split; [|split].
  - rewrite length_flat_map.
    rewrite <- (map_seq_nth (fun topic => length topic) beta_file []).
    f_equal. apply map_ext. intros t.
    rewrite length_map, length_rev. apply argsort_length.
  - rewrite flat_map_concat_map, concat_map, map_map, <- flat_map_concat_map.
    erewrite flat_map_ext;
      [apply (nodup_pairs _ (fun t => rev (np_argsort (nth t beta_file []))))|].
    + apply seq_NoDup.
    + intros t. apply NoDup_rev.
      apply (Permutation_NoDup (Permutation_sym (argsort_perm np_lt _))).
      apply seq_NoDup.
    + intros t. now rewrite map_map.
  - intros t j s. rewrite in_flat_map. split.
    + intros (t' & Ht' & Hin). apply in_map_iff in Hin as (j' & E & Hj').
      injection E as -> -> <-. apply in_seq in Ht'.
      apply in_rev, (argsort_in np_lt) in Hj'.
      exists (nth t beta_file []). split; apply nth_error_nth'; lia.
    + intros (topic & Ht & Hj). exists t. split.
      * apply in_seq. split; [lia|]. simpl. apply nth_error_Some. congruence.
      * rewrite (nth_error_nth _ _ [] Ht). apply in_map_iff. exists j. split.
        -- now rewrite (nth_error_nth _ _ nan Hj).
        -- apply -> in_rev. apply (argsort_in np_lt).
           apply nth_error_Some. congruence.
Qed.

Lemma forall2_map_self {A B : Type} (P : A -> B -> Prop) (f : A -> B) l :
  (forall x, In x l -> P x (f x)) -> Forall2 P l (map f l).
Proof.
  induction l as [|x l IH]; simpl; intros H; constructor.
  - apply H. now left.
  - apply IH. intros y Hy. apply H. now right.
Qed.

(** X6.  The rows of [write_topic_term] come line after line, and within a
    line in descending order of weight (in the order of the sort): read
    backwards, the scores of a line are ascending. *)
Theorem topic_term_heaviest_first beta_file :
  exists blocks,
    write_topic_term beta_file = Ok (concat blocks) /\
    Forall2 (fun e block =>
               length block = length (snd e) /\
               (forall r, In r block -> entity_a r = fst e) /\
               ascending (rev (map score block)))
            (enumerate beta_file) blocks.
Proof.
  set (f := fun e : nat * list float =>
              map (fun j => (fst e, j, nth j (snd e) nan))
                  (rev (np_argsort (snd e)))).
  exists (map f (enumerate beta_file)). split.
  - unfold write_topic_term. rewrite <- flat_map_concat_map.
    apply for_each_ok. intros [t topic] _. unfold topic_term_round, f.
    f_equal. apply generic_generator_take.
    rewrite length_rev. unfold np_argsort. now rewrite argsort_length.
  - apply forall2_map_self. intros [t topic] _. unfold f. simpl.
    split; [|split].
    + rewrite length_map, length_rev. apply argsort_length.
    + intros r Hr. apply in_map_iff in Hr as (j & <- & _). reflexivity.
    + rewrite map_map. simpl. rewrite <- map_rev, rev_involutive.
      unfold ascending.
      apply (strongly_sorted_map
               (fun i j => np_le (nth i topic nan) (nth j topic nan) = true)
               (fun x y => np_le x y = true)
               (fun j => nth j topic nan)); [auto|].
      apply np_argsort_sorted.
Qed.

(** ** Which gamma files are accepted *)

Lemma filter_nonblank_idem (lines : list (list float)) :
  filter (fun l => negb (is_blank l)) (filter (fun l => negb (is_blank l)) lines)
  = filter (fun l => negb (is_blank l)) lines.
Proof.
  induction lines as [|r t IH]; simpl; [reflexivity|].
  destruct (negb (is_blank r)) eqn:E; simpl; [rewrite E|]; now rewrite IH.
Qed.

Lemma loadtxt_data lines :
  loadtxt lines = loadtxt (filter (fun l => negb (is_blank l)) lines).
Proof. unfold loadtxt. now rewrite filter_nonblank_idem. Qed.

Lemma loadtxt_raise lines e : loadtxt lines = Raise e -> e = ValueError.
Proof.
  unfold loadtxt. destruct (filter _ lines) as [|r t]; [discriminate|].
  destruct (rectangular _ _); [discriminate|]. congruence.
Qed.

Lemma broadcast_raise f a b e : broadcast f a b = Raise e -> e = ValueError.
Proof.
  unfold broadcast, broadcast_dim.
  destruct (_ =? _); [discriminate|].
  destruct (_ =? _); [discriminate|].
  destruct (_ =? _); [discriminate|]. simpl. congruence.
Qed.

Lemma write_doc_doc_raise gamma_file e :
  write_doc_doc gamma_file = Raise e -> e = ValueError.
Proof.
  unfold write_doc_doc.
  destruct (loadtxt gamma_file) as [[?|?|g|?]|e'] eqn:El; cbn [bind];
    try congruence.
  - apply for_each_raise. intros a e'. unfold doc_doc_round, hellinger_distance.
    destruct (broadcast _ _ _) as [d|e''] eqn:Eb; cbn [bind]; [discriminate|].
    intros H. injection H as <-. now apply broadcast_raise in Eb.
  - intros H. injection H as <-. now apply loadtxt_raise in El.
Qed.

Lemma loadtxt_arr2 lines g :
  loadtxt lines = Ok (Arr2 g) ->
  exists n k, matrix_file n k (filter (fun l => negb (is_blank l)) lines).
Proof.
  unfold loadtxt.
  assert (Hnb : Forall (fun l => negb (is_blank l) = true)
                       (filter (fun l => negb (is_blank l)) lines)).
  { apply Forall_forall. intros l Hl. now apply filter_In in Hl. }
  destruct (filter _ lines) as [|r t]; [discriminate|].
  destruct (rectangular (length r) (r :: t)) eqn:Er; [|discriminate].
  unfold squeeze. cbn [rows ncols].
  destruct t as [|r' t].
  - destruct r as [|x [|y r]]; discriminate.
  - destruct (Nat.eqb_spec (length r) 1) as [E1|E1]; [discriminate|].
    intros _. exists (length (r :: r' :: t)), (length r).
    unfold matrix_file. repeat split; try assumption.
    + simpl. lia.
    + inversion Hnb as [|? ? Hr _]; subst. destruct r; [discriminate|].
      simpl in *. lia.
Qed.

(** X7.  [write_doc_doc] needs at least two documents and two topics.
    Blank lines of the gamma file are not seen; the function succeeds
    exactly when the non-blank lines are at least two lines of one length,
    that length being at least two, and on every other file (no data, a
    single document, a single topic, lines of different lengths) it raises
    ValueError. *)
Theorem doc_doc_accepted_files gamma_file :
  let data := filter (fun l => negb (is_blank l)) gamma_file in
  write_doc_doc gamma_file = write_doc_doc data /\
  ((exists n k, matrix_file n k data) ->
   exists rs, write_doc_doc gamma_file = Ok rs) /\
  (~ (exists n k, matrix_file n k data) ->
   write_doc_doc gamma_file = Raise ValueError).
Proof.
  intros data. split; [|split].
  - unfold write_doc_doc. now rewrite loadtxt_data.
  - intros (n & k & H). eexists.
    unfold write_doc_doc. rewrite loadtxt_data. fold data.
    apply (write_doc_doc_rows n k data H).
  - intros Hn. destruct (write_doc_doc gamma_file) as [rs|e] eqn:E.
    + exfalso. apply Hn. unfold write_doc_doc in E.
      destruct (loadtxt gamma_file) as [[?|?|g|?]|e'] eqn:El; cbn [bind] in E;
        try discriminate.
      exact (loadtxt_arr2 _ _ El).
    + now rewrite (write_doc_doc_raise _ _ E).
Qed.

Lemma doc_doc_accepted_files_witness :
  (exists rs, write_doc_doc [[1; 3]; []; [3; 1]]%float = Ok rs) /\
  write_doc_doc [[1; 2; 1]]%float = Raise ValueError /\
  write_doc_doc [[1]; [2]; [3]]%float = Raise ValueError /\
  write_doc_doc [[1; 2]; [3]]%float = Raise ValueError.
Proof.
  split; [|split; [|split]].
  - apply (proj1 (proj2 (doc_doc_accepted_files [[1; 3]; []; [3; 1]]%float))).
    exists 2, 2. unfold matrix_file. repeat split; try reflexivity; lia.
  - apply (proj2 (proj2 (doc_doc_accepted_files [[1; 2; 1]]%float))).
    intros (n & k & Hn & _ & Hl & _). simpl in Hl. lia.
  - apply (proj2 (proj2 (doc_doc_accepted_files [[1]; [2]; [3]]%float))).
    intros (n & k & _ & Hk & _ & Hr). simpl in Hr.
    destruct k as [|[|k]]; simpl in *; try lia; discriminate.
  - apply (proj2 (proj2 (doc_doc_accepted_files [[1; 2]; [3]]%float))).
    intros (n & k & _ & _ & _ & Hr). simpl in Hr.
    destruct k as [|[|[|k]]]; simpl in Hr; discriminate.
Defined.

(** X8.  [write_doc_topic] reads the gamma file with [loadtxt] before it
    inserts anything: when the non-blank lines have one length it inserts
    one row per number of the file, and when two non-blank lines differ in
    length it raises ValueError and inserts nothing. *)
Theorem doc_topic_accepted_files gamma_file :
  let data := filter (fun l => negb (is_blank l)) gamma_file in
  (rectangular (length (hd [] data)) data = true ->
   exists rs,
     write_doc_topic gamma_file = Ok rs /\
     length rs = list_sum (map (fun doc => length doc) gamma_file)) /\
  (rectangular (length (hd [] data)) data = false ->
   write_doc_topic gamma_file = Raise ValueError).
Proof.
  intros data. split; intros Hr.
  - assert (Hl : exists g, loadtxt gamma_file = Ok g).
    { unfold loadtxt. fold data. destruct data as [|r t]; [eauto|].
      simpl hd in Hr. rewrite Hr. eauto. }
    destruct Hl as (g & Hl). eexists.
    split; [exact (write_doc_topic_rows _ _ Hl)|].
    rewrite length_flat_map.
    rewrite <- (map_seq_nth (fun doc => length doc) gamma_file []).
    f_equal. apply map_ext. intros d. unfold doc_topic_rows.
    now rewrite length_map, length_seq.
  - unfold write_doc_topic, loadtxt. fold data.
    destruct data as [|r t]; [discriminate|].
    simpl hd in Hr. now rewrite Hr.
Qed.

Lemma doc_topic_accepted_files_witness :
  (exists rs, write_doc_topic [[1; 3]; []; [3; 1]]%float = Ok rs /\
              length rs = 4) /\
  write_doc_topic [[1; 2]; [3]]%float = Raise ValueError.
Proof.
  split.
  - apply (proj1 (doc_topic_accepted_files [[1; 3]; []; [3; 1]]%float)).
    reflexivity.
  - apply (proj2 (doc_topic_accepted_files [[1; 2]; [3]]%float)).
    reflexivity.
Defined.

(** ** write_topics: lines that cannot be titled *)

Lemma subscript_raise {A : Type} (l : list A) i e :
  subscript l i = Raise e -> e = IndexError.
Proof. unfold subscript. destruct (nth_error l i); congruence. Qed.

Lemma subscript_ok_lt {A : Type} (l : list A) i x :
  subscript l i = Ok x -> i < length l.
Proof.
  unfold subscript. destruct (nth_error l i) eqn:E; [|discriminate].
  intros _. apply nth_error_Some. congruence.
Qed.

Ltac step_subscript H :=
  match type of H with
  | context [bind (subscript ?l ?i) _] =>
      let E := fresh "E" in
      destruct (subscript l i) eqn:E; cbn [bind] in H
  end.

Lemma topics_round_raise vocab topic e :
  topics_round vocab topic = Raise e -> e = IndexError.
Proof.
  unfold topics_round. intros H.
  repeat (step_subscript H;
          [|injection H as <-; eapply subscript_raise; eassumption]).
  discriminate.
Qed.

Lemma topics_round_ok vocab topic ts :
  topics_round vocab topic = Ok ts -> 3 <= length topic /\ length ts = 1.
Proof.
  unfold topics_round. intros H.
  repeat (step_subscript H; [|discriminate]).
  injection H as <-. split; [|reflexivity].
  match goal with
  | E : subscript (rev _) 2 = Ok _ |- _ => apply subscript_ok_lt in E;
      rewrite length_rev in E; unfold np_argsort in E;
      rewrite argsort_length in E
  end. lia.
Qed.

(** X9.  [write_topics] can fail in one way only, with IndexError, and it
    does so as soon as a line of the beta file has fewer than three
    weights; when it succeeds it has inserted one title per line. *)
Theorem topics_needs_three_weights beta_file vocab :
  (forall e, write_topics beta_file vocab = Raise e -> e = IndexError) /\
  ((exists topic, In topic beta_file /\ length topic < 3) ->
   write_topics beta_file vocab = Raise IndexError) /\
  (forall titles, write_topics beta_file vocab = Ok titles ->
                  length titles = length beta_file).
Proof.
  unfold write_topics. split; [|split].
  - apply for_each_raise. intros topic e. apply topics_round_raise.
  - intros (topic & Hin & Hlen).
    destruct (for_each_raise_in (topics_round vocab) beta_file) as (e & He).
    + exists topic. split; [exact Hin|].
      destruct (topics_round vocab topic) as [ts|e] eqn:E; [|eauto].
      apply topics_round_ok in E. lia.
    + rewrite He. f_equal.
      revert He. apply for_each_raise. intros t e'. apply topics_round_raise.
  - intros titles H. apply for_each_blocks in H as (blocks & -> & HF).
    induction HF as [|topic b l bs Hb _ IH]; simpl; [reflexivity|].
    rewrite length_app, IH. apply topics_round_ok in Hb. lia.
Qed.

Lemma topics_needs_three_weights_witness :
  write_topics [[0.1; 0.7; 0.2]; [0.5; 0.5]]%float ["a"; "b"; "c"]%string
  = Raise IndexError.
Proof.
  apply (proj1 (proj2 (topics_needs_three_weights
           [[0.1; 0.7; 0.2]; [0.5; 0.5]]%float ["a"; "b"; "c"]%string))).
  exists [0.5; 0.5]%float. split; [simpl; auto|simpl; lia].
Defined.

(** ** Binary64 facts: differences of equal values, products with zero *)

Lemma isfinite_spec x :
  np_isfinite x = true ->
  (exists s, Prim2SF x = S754_zero s) \/
  (exists s m e, Prim2SF x = S754_finite s m e).
Proof.
  unfold np_isfinite. rewrite FloatAxioms.ltb_spec, FloatAxioms.abs_spec.
  change (Prim2SF infinity) with (S754_infinity false).
  destruct (Prim2SF x) as [s|s| |s m e]; simpl; try discriminate; eauto.
Qed.

Lemma sub_self x : np_isfinite x = true -> PrimFloat.sub x x = 0%float.
Proof.
  intros H. apply Prim2SF_inj. rewrite FloatAxioms.sub_spec.
  change (Prim2SF 0) with (S754_zero false).
  destruct (isfinite_spec x H) as [(s & ->)|(s & m & e & ->)].
  - now destruct s.
  - unfold SF64sub, SFsub. now rewrite Z.sub_diag.
Qed.

Lemma zip_with_diag {A B : Type} (f : A -> A -> B) l :
  zip_with f l l = map (fun x => f x x) l.
Proof.
  unfold zip_with. induction l as [|x l IH]; simpl; [reflexivity|].
  now rewrite IH.
Qed.

Lemma fsum_zeros (l : list float) :
  Forall (fun x => x = 0%float) l -> fsum l = 0%float.
Proof.
  apply (sum_list_closed 0%float PrimFloat.add
           (fun x => x = 0%float) (fun x => x = 0%float));
    try reflexivity; intros x y -> ->; reflexivity.
Qed.

Lemma term_pair_self a :
  Forall (fun x => np_isfinite x = true) a -> term_pair a a = 0%float.
Proof.
  intros H. unfold term_pair. rewrite zip_with_diag, map_map.
  apply fsum_zeros, Forall_map. revert H. apply Forall_impl.
  intros x Hx. now rewrite sub_self.
Qed.

Lemma hellinger_pair_self a :
  Forall (fun x => np_isfinite (np_sqrt x) = true) a ->
  hellinger_pair a a = 0%float.
Proof.
  intros H. unfold hellinger_pair. rewrite zip_with_diag, !map_map.
  apply fsum_zeros, Forall_map. revert H. apply Forall_impl.
  intros x Hx. now rewrite sub_self.
Qed.

Lemma euclidean_distance_rows a b :
  length a = ncols b -> well_shaped b ->
  euclidean_distance a b = Ok (map (fun r => np_sqrt (term_pair a r)) (rows b)).
Proof.
  intros Ha Hb. unfold euclidean_distance.
  rewrite broadcast_same by assumption.
  simpl. unfold np_sum_axis1. simpl. now rewrite !map_map.
Qed.

(** X10.  A row compared with itself scores exactly zero: when the
    reference [a] is the row [i] of the candidates [b], the score number
    [i] of the term score and of the Euclidean distance is 0.0 if the
    entries of [a] are finite, and that of the Hellinger distance is 0.0
    if their square roots are (the entries are finite and not negative). *)
Theorem self_comparison_scores_zero a b i :
  well_shaped b -> nth_error (rows b) i = Some a ->
  (Forall (fun x => np_isfinite x = true) a ->
   exists d d',
     get_term_score a b = Ok d /\ nth_error d i = Some 0%float /\
     euclidean_distance a b = Ok d' /\ nth_error d' i = Some 0%float) /\
  (Forall (fun x => np_isfinite (np_sqrt x) = true) a ->
   exists d,
     hellinger_distance a b = Ok d /\ nth_error d i = Some 0%float).
Proof.
  intros Hw Hi.
  assert (Ha : length a = ncols b).
  { unfold well_shaped in Hw. rewrite Forall_forall in Hw.
    apply Hw. eapply nth_error_In, Hi. }
  split; intros Hf.
  - do 2 eexists.
    split; [now apply get_term_score_rows|].
    split; [|split; [now apply euclidean_distance_rows|]].
    + rewrite nth_error_map, Hi. simpl. now rewrite term_pair_self.
    + rewrite nth_error_map, Hi. simpl. now rewrite term_pair_self.
  - eexists. split; [now apply hellinger_distance_rows|].
    rewrite nth_error_map, Hi. simpl. now rewrite hellinger_pair_self.
Qed.

Lemma self_comparison_scores_zero_witness :
  exists d,
    hellinger_distance [0.25; 0.75]%float
      (mkArray2 2 [[0.75; 0.25]; [0.25; 0.75]]%float) = Ok d /\
    nth_error d 1 = Some 0%float.
Proof.
  apply (self_comparison_scores_zero [0.25; 0.75]%float
           (mkArray2 2 [[0.75; 0.25]; [0.25; 0.75]]%float) 1).
  - repeat constructor.
  - reflexivity.
  - repeat constructor.
Defined.

(** X11.  In doc_doc and in term_term the comparison of a reference with
    itself (position 0 of its block) never carries a finite score: when
    the row of the reference is finite (for doc_doc, the square roots of
    the row of theta), every row inserted for the reference with second
    entity 0 has the score [inf]. *)
Theorem self_row_scores_infinity :
  (forall n k gamma_file rs a s,
      matrix_file n k gamma_file ->
      let theta := rows (theta_of (mkArray2 k gamma_file)) in
      Forall (fun x => np_isfinite (np_sqrt x) = true) (nth a theta []) ->
      write_doc_doc gamma_file = Ok rs ->
      In (a, 0, s) rs -> s = infinity) /\
  (forall np_exp n k beta_file no_vocab rs a s,
      1 <= n -> length beta_file = n -> rectangular k beta_file = true ->
      let v := map (map (fun x => np_sqrt (np_exp x))) beta_file in
      Forall (fun x => np_isfinite x = true) (nth a v []) ->
      write_term_term np_exp beta_file no_vocab = Ok rs ->
      In (a, 0, s) rs -> s = infinity).
Proof.
  split.
  - intros n k gamma_file rs a s H theta Hf Hrs Hin.
    rewrite (write_doc_doc_rows n k _ H) in Hrs. injection Hrs as <-.
    fold theta in Hin. apply in_flat_map in Hin as (a' & Ha' & Hin).
    apply in_seq in Ha'.
    assert (Hn : length theta = n).
    { unfold theta. rewrite theta_length. now destruct H as (_ & _ & ? & _). }
    set (v := drop_zeros (map (hellinger_pair (nth a' theta [])) (skipn a' theta))).
    destruct (top_rows_spec a' 100 v) as (_ & _ & Hc & _); [lia|].
    destruct (Hc a 0 s Hin) as (-> & _ & ->).
    unfold v. rewrite drop_zeros_entry by (rewrite length_skipn; lia).
    rewrite nth_skipn, Nat.add_0_r, hellinger_pair_self by assumption.
    reflexivity.
  - intros np_exp n k beta_file no_vocab rs a s Hn Hlen Hrect v Hf Hrs Hin.
    rewrite (write_term_term_rows np_exp n k _ _ Hn Hlen Hrect) in Hrs.
    injection Hrs as <-. fold v in Hin.
    apply in_flat_map in Hin as (a' & Ha' & Hin). apply in_seq in Ha'.
    assert (Hv : length v = n) by (unfold v; now rewrite length_map).
    set (sc := drop_zeros (map (term_pair (nth a' v [])) (skipn a' v))).
    destruct (top_rows_spec a' (length sc) sc (Nat.le_min_r _ _))
      as (_ & _ & Hc & _).
    destruct (Hc a 0 s Hin) as (-> & _ & ->).
    unfold sc. rewrite drop_zeros_entry by (rewrite length_skipn; lia).
    rewrite nth_skipn, Nat.add_0_r, term_pair_self by assumption.
    reflexivity.
Qed.

Lemma self_row_scores_infinity_witness :
  In (1, 0, infinity) [(0, 1, 2%float); (0, 0, infinity); (1, 0, infinity)] /\
  snd (1, 0, infinity) = infinity.
Proof.
  split; [simpl; auto|].
  apply (proj2 self_row_scores_infinity (fun x => x) 2 2
           [[1; 4]; [4; 1]]%float 2
           [(0, 1, 2%float); (0, 0, infinity); (1, 0, infinity)] 1 infinity);
    try reflexivity; try lia.
  - repeat constructor.
  - simpl. auto.
Defined.

(** ** The cosine of a zero vector *)

Lemma eqb_zero_spec x :
  is_zero x = true -> exists s, Prim2SF x = S754_zero s.
Proof.
  unfold is_zero. rewrite FloatAxioms.eqb_spec.
  change (Prim2SF 0) with (S754_zero false). unfold SFeqb.
  destruct (Prim2SF x) as [s|s| |s m e]; simpl; try discriminate; eauto.
  - destruct s; discriminate.
  - destruct s; discriminate.
Qed.

Lemma zero_is_zero_or_nan x : is_zero x = true -> zero_or_nan x.
Proof.
  intros H. destruct (eqb_zero_spec x H) as (s & E).
  unfold zero_or_nan. now rewrite E.
Qed.

Lemma mul_zero_or_nan_r x y : zero_or_nan y -> zero_or_nan (PrimFloat.mul x y).
Proof.
  unfold zero_or_nan. rewrite FloatAxioms.mul_spec. unfold SF64mul.
  destruct (Prim2SF x) as [sx|sx| |sx mx ex], (Prim2SF y) as [sy|sy| |sy my ey];
    simpl; tauto.
Qed.

Lemma mul_zero_or_nan_l x y : zero_or_nan x -> zero_or_nan (PrimFloat.mul x y).
Proof.
  unfold zero_or_nan. rewrite FloatAxioms.mul_spec. unfold SF64mul.
  destruct (Prim2SF x) as [sx|sx| |sx mx ex], (Prim2SF y) as [sy|sy| |sy my ey];
    simpl; tauto.
Qed.

Lemma add_zero_or_nan x y :
  zero_or_nan x -> zero_or_nan y -> zero_or_nan (PrimFloat.add x y).
Proof.
  unfold zero_or_nan. rewrite FloatAxioms.add_spec. unfold SF64add.
  destruct (Prim2SF x) as [sx|sx| |sx mx ex], (Prim2SF y) as [sy|sy| |sy my ey];
    simpl; try tauto.
  destruct sx, sy; simpl; tauto.
Qed.

Lemma sqrt_zero_or_nan x : zero_or_nan x -> zero_or_nan (np_sqrt x).
Proof.
  unfold zero_or_nan, np_sqrt. rewrite FloatAxioms.sqrt_spec. unfold SF64sqrt.
  destruct (Prim2SF x) as [sx|sx| |sx mx ex]; simpl; tauto.
Qed.

Lemma div_zero_or_nan x y :
  zero_or_nan x -> zero_or_nan y -> PrimFloat.div x y = nan.
Proof.
  unfold zero_or_nan. intros Hx Hy. apply Prim2SF_inj.
  rewrite FloatAxioms.div_spec. unfold SF64div.
  change (Prim2SF nan) with S754_nan.
  destruct (Prim2SF x) as [sx|sx| |sx mx ex], (Prim2SF y) as [sy|sy| |sy my ey];
    simpl; tauto.
Qed.

Lemma fsum_zero_or_nan (l : list float) :
  Forall zero_or_nan l -> zero_or_nan (fsum l).
Proof.
  apply (sum_list_closed 0%float PrimFloat.add zero_or_nan zero_or_nan);
    try exact I; apply add_zero_or_nan.
Qed.

Lemma dot1_zero_or_nan r a :
  Forall zero_or_nan a -> zero_or_nan (dot1 r a).
Proof.
  intros Ha. unfold dot1, zip_with. apply fsum_zero_or_nan, Forall_map.
  apply Forall_forall. intros [x y] Hin. simpl.
  apply mul_zero_or_nan_r. rewrite Forall_forall in Ha.
  apply Ha. eapply in_combine_r, Hin.
Qed.

Lemma zip_with_map {A B C D : Type} (f : B -> C -> D) (g : A -> B) (h : A -> C) l :
  zip_with f (map g l) (map h l) = map (fun x => f (g x) (h x)) l.
Proof.
  unfold zip_with. induction l as [|x l IH]; simpl; [reflexivity|].
  now rewrite IH.
Qed.

(** X12.  The cosine of a reference whose entries are all zero is
    undefined and is returned as such: when the length of [a] is the row
    length of [b], [cosine_distance] does not raise and every score is
    NaN, whatever the candidates are. *)
Theorem cosine_of_zero_vector_is_nan a b :
  length a = ncols b ->
  Forall (fun x => is_zero x = true) a ->
  cosine_distance a b = Ok (map (fun _ => nan) (rows b)).
Proof.
  intros Hlen Hz.
  assert (Ha : Forall zero_or_nan a).
  { revert Hz. apply Forall_impl. intros x. apply zero_is_zero_or_nan. }
  unfold cosine_distance, np_dot. rewrite Hlen, Nat.eqb_refl. cbn [bind].
  f_equal. unfold np_sum_axis1. cbn [amap rows]. rewrite !map_map.
  rewrite zip_with_map. apply map_ext. intros r.
  apply div_zero_or_nan.
  - now apply dot1_zero_or_nan.
  - apply mul_zero_or_nan_l, sqrt_zero_or_nan, dot1_zero_or_nan, Ha.
Qed.

Lemma cosine_of_zero_vector_is_nan_witness :
  cosine_distance [0; 0]%float (mkArray2 2 [[0.25; 0.75]; [3; 4]]%float)
  = Ok [nan; nan].
Proof.
  apply (cosine_of_zero_vector_is_nan [0; 0]%float
           (mkArray2 2 [[0.25; 0.75]; [3; 4]]%float)).
  - reflexivity.
  - repeat constructor.
Defined.

(** ** Normalised rows (C8) *)




















(** ** Score functions on matching dimensions *)

(** X13.  When the length of [a] is the row length of [b], none of the
    seven score functions raises, whatever the values are (negative, zero,
    infinite or NaN entries included): each returns one score per row of
    [b]. *)
Theorem matching_dimensions_give_scores np_log a b :
  length a = ncols b ->
  one_score_per_row b (bhatt_distance np_log a b) /\
  one_score_per_row b (euclidean_distance a b) /\
  one_score_per_row b (kl_distance np_log a b) /\
  one_score_per_row b (cosine_distance a b) /\
  one_score_per_row b (hellinger_distance a b) /\
  one_score_per_row b (get_topic_score a b) /\
  one_score_per_row b (get_term_score a b).
Proof.
  intros H.
  assert (H2 : length a = ncols b \/ length a = 1 \/ ncols b = 1) by tauto.
  unfold one_score_per_row, bhatt_distance, euclidean_distance, kl_distance,
    cosine_distance, hellinger_distance, get_topic_score, get_term_score,
    np_dot.
  cbn [amap ncols]. rewrite !length_map, H, Nat.eqb_refl. cbn [bind].
  repeat split.
  - eexists. split; [reflexivity|]. cbn [amap rows]. now rewrite !length_map.
  - destruct (broadcast_one PrimFloat.sub a b) as (w & _ & ->); [auto|].
    eexists. split; [reflexivity|].
    unfold np_sum_axis1. cbn [amap rows]. now rewrite !length_map.
  - destruct (broadcast_one PrimFloat.sub (map np_log a) (amap np_log b))
      as (w & Hw & ->); [cbn [amap ncols]; now rewrite length_map|].
    cbn [bind]. rewrite length_map in Hw.
    match goal with
    | |- context [broadcast PrimFloat.mul a ?m] =>
        destruct (broadcast_one PrimFloat.mul a m) as (w' & _ & ->);
          [cbn [ncols]; destruct Hw; auto|]
    end.
    eexists. split; [reflexivity|].
    unfold np_sum_axis1. cbn [amap rows]. now rewrite !length_map.
  - eexists. split; [reflexivity|].
    unfold np_sum_axis1. cbn [amap rows].
    rewrite zip_with_length, !length_map. apply Nat.min_id.
  - destruct (broadcast_one PrimFloat.sub (map np_sqrt a) (amap np_sqrt b))
      as (w & _ & ->); [cbn [amap ncols]; now rewrite length_map|].
    eexists. split; [reflexivity|].
    unfold np_sum_axis1. cbn [amap rows]. now rewrite !length_map.
  - destruct (broadcast_one PrimFloat.sub
                (map np_sqrt (map PrimFloat.abs a))
                (amap np_sqrt (amap PrimFloat.abs b)))
      as (w & _ & ->); [cbn [amap ncols]; now rewrite !length_map|].
    eexists. split; [reflexivity|].
    unfold np_sum_axis1. cbn [amap rows]. now rewrite !length_map.
  - destruct (broadcast_one PrimFloat.sub a b) as (w & _ & ->); [auto|].
    eexists. split; [reflexivity|].
    unfold np_sum_axis1. cbn [amap rows]. now rewrite !length_map.
Qed.

Lemma matching_dimensions_give_scores_witness :
  one_score_per_row (mkArray2 2 [[0.25; 0.75]; [-1; nan]]%float)
    (kl_distance (fun x => x) [0; infinity]%float
       (mkArray2 2 [[0.25; 0.75]; [-1; nan]]%float)).
Proof.
  apply (matching_dimensions_give_scores (fun x => x) [0; infinity]%float
           (mkArray2 2 [[0.25; 0.75]; [-1; nan]]%float)).
  reflexivity.
Defined.

(** ** Stripped lines: file_generator, write_terms, write_docs *)

Local Open Scope string_scope.

Lemma lstrip_spec s :
  exists l, s = l ++ lstrip s /\ all_space l = true /\
            forall c t, lstrip s = String c t -> is_space c = false.
Proof.
  induction s as [|c s (l & E & Hl & Hh)]; simpl.
  - exists "". repeat split. discriminate.
  - destruct (is_space c) eqn:Ec.
    + exists (String c l). simpl. rewrite Ec, Hl, <- E. repeat split. exact Hh.
    + exists "". repeat split. intros c' t H. now injection H as <- _.
Qed.

Lemma rstrip_spec s :
  exists r, s = rstrip s ++ r /\ all_space r = true /\
            forall t c, rstrip s = t ++ String c "" -> is_space c = false.
Proof.
  induction s as [|c s (r & E & Hr & Hl)]; simpl.
  - exists "". repeat split. intros [|? ?]; discriminate.
  - destruct (is_space c && is_empty (rstrip s)) eqn:Ec.
    + apply andb_prop in Ec as [Ec Ee].
      destruct (rstrip s); [|discriminate]. simpl in E. subst r.
      exists (String c s). simpl. rewrite Ec, Hr. repeat split.
      intros [|? ?]; discriminate.
    + exists r. simpl. rewrite <- E. repeat split; [exact Hr|].
      intros [|c' t] d H; simpl in H; injection H as -> H.
      * rewrite H in Ec. simpl in Ec. now rewrite andb_true_r in Ec.
      * now apply (Hl t d).
Qed.

Lemma rstrip_head s c t :
  rstrip s = String c t -> exists t', s = String c t'.
Proof.
  destruct s as [|c' s]; simpl; [discriminate|].
  destruct (is_space c' && is_empty (rstrip s)); [discriminate|].
  intros H. injection H as -> _. eauto.
Qed.

Lemma strip_spec s :
  exists l r,
    s = l ++ strip s ++ r /\ all_space l = true /\ all_space r = true /\
    (forall c t, strip s = String c t -> is_space c = false) /\
    (forall t c, strip s = t ++ String c "" -> is_space c = false).
Proof.
  unfold strip.
  destruct (lstrip_spec s) as (l & El & Hl & Hh).
  destruct (rstrip_spec (lstrip s)) as (r & Er & Hr & Ht).
  exists l, r. repeat split; try assumption.
  - now rewrite <- Er.
  - intros c t H. apply rstrip_head in H as (t' & H). now apply (Hh c t').
Qed.

Lemma lstrip_fix s :
  (forall c t, s = String c t -> is_space c = false) -> lstrip s = s.
Proof.
  destruct s as [|c s]; simpl; [reflexivity|].
  intros H. now rewrite (H c s eq_refl).
Qed.

Lemma rstrip_fix s :
  (forall t c, s = t ++ String c "" -> is_space c = false) -> rstrip s = s.
Proof.
  induction s as [|c s IH]; simpl; intros H; [reflexivity|].
  rewrite IH.
  - destruct s as [|c' s']; simpl; [|now rewrite andb_false_r].
    now rewrite (H "" c eq_refl).
  - intros t d E. apply (H (String c t) d). simpl. now rewrite E.
Qed.

Lemma strip_idempotent s : strip (strip s) = strip s.
Proof.
  destruct (strip_spec s) as (l & r & _ & _ & _ & Hh & Ht).
  unfold strip at 1. now rewrite (lstrip_fix _ Hh), (rstrip_fix _ Ht).
Qed.

(** X14.  [write_terms] and [write_docs] insert one title per line of
    their file, in the order of the file; the title of a line is the line
    without the whitespace at its two ends (what is removed is whitespace
    only, and the title neither starts nor ends with whitespace), so a
    line of whitespace gives an empty title and is not skipped. *)
Theorem titles_are_stripped_lines (lines : list string) :
  exists titles,
    write_terms lines = Ok titles /\ write_docs lines = Ok titles /\
    length titles = length lines /\
    forall i line,
      nth_error lines i = Some line ->
      exists title l r,
        nth_error titles i = Some title /\
        line = l ++ title ++ r /\
        all_space l = true /\ all_space r = true /\
        (forall c t, title = String c t -> is_space c = false) /\
        (forall t c, title = t ++ String c "" -> is_space c = false).
Proof.
  exists (file_generator lines). unfold write_terms, write_docs, file_generator.
  repeat split; [apply length_map|].
  intros i line H.
  destruct (strip_spec line) as (l & r & E & Hl & Hr & Hh & Ht).
  exists (strip line), l, r. repeat split; try assumption.
  now rewrite nth_error_map, H.
Qed.

Lemma titles_are_stripped_lines_witness :
  exists title l r,
    nth_error (file_generator ["  a b" ++ String "010" ""; "c"]) 0 = Some title /\
    "  a b" ++ String "010" "" = l ++ title ++ r /\
    all_space l = true /\ all_space r = true.
Proof.
  destruct (titles_are_stripped_lines ["  a b" ++ String "010" ""; "c"])
    as (titles & Ht & _ & _ & H).
  injection Ht as <-.
  destruct (H 0 ("  a b" ++ String "010" "") eq_refl)
    as (title & l & r & H1 & H2 & H3 & H4 & _).
  exists title, l, r. auto.
Defined.

(** X15.  Stripping is idempotent: a title read back through
    [file_generator] is unchanged, so the vocabulary the driver strips
    itself and the titles [write_terms] strips from the same file are the
    same strings. *)
Theorem file_generator_idempotent (lines : list string) :
  file_generator (file_generator lines) = file_generator lines /\
  file_generator (map strip lines) = map strip lines.
Proof.
  assert (H : file_generator (file_generator lines) = file_generator lines).
  { unfold file_generator. rewrite map_map. apply map_ext.
    intros s. apply strip_idempotent. }
  split; exact H.
Qed.

(** ** Splitting a line *)

Lemma append_snoc (cur : string) c l :
  (cur ++ String c "") ++ l = cur ++ String c l.
Proof. induction cur as [|d cur IH]; simpl; [reflexivity|now rewrite IH]. Qed.

Lemma append_empty_r (s : string) : s ++ "" = s.
Proof. induction s as [|c s IH]; simpl; [reflexivity|now rewrite IH]. Qed.

Lemma split_ws_label label sp rest cur :
  no_space label = true -> is_space sp = true -> cur ++ label <> "" ->
  split_ws (label ++ String sp rest) cur = (cur ++ label) :: split_ws rest "".
Proof.
  revert cur. induction label as [|c label IH]; simpl; intros cur Hl Hs Hn.
  - rewrite Hs. rewrite append_empty_r in *.
    destruct cur; [contradiction|reflexivity].
  - apply andb_prop in Hl as [Hc Hl]. apply negb_true_iff in Hc. rewrite Hc.
    rewrite IH; [|assumption|assumption|].
    + now rewrite append_snoc.
    + rewrite append_snoc. now destruct cur.
Qed.

Lemma py_split_label label sp rest :
  no_space label = true -> is_space sp = true -> label <> "" ->
  py_split (label ++ String sp rest) = label :: py_split rest.
Proof.
  intros Hl Hs Hn. unfold py_split.
  now rewrite split_ws_label.
Qed.

Lemma split_on_none sep s cur :
  contains sep s = false -> split_on sep s cur = [cur ++ s].
Proof.
  revert cur. induction s as [|c s IH]; simpl; intros cur H.
  - now rewrite append_empty_r.
  - apply orb_false_iff in H as [Hc Hs]. rewrite Hc, IH by assumption.
    now rewrite append_snoc.
Qed.

Lemma split_on_nonempty sep s cur :
  exists f fs, split_on sep s cur = f :: fs.
Proof.
  revert cur. induction s as [|c s IH]; simpl; intros cur; [eauto|].
  destruct (Ascii.eqb c sep); eauto.
Qed.

Lemma split_on_some sep s cur :
  contains sep s = true ->
  exists f0 f1 fs, split_on sep s cur = f0 :: f1 :: fs.
Proof.
  revert cur. induction s as [|c s IH]; simpl; intros cur H; [discriminate|].
  destruct (Ascii.eqb c sep) eqn:Ec.
  - destruct (split_on_nonempty sep s "") as (f & fs & ->). eauto.
  - simpl in H. now apply IH.
Qed.

Lemma split_on_app sep s1 s2 cur :
  contains sep s1 = false ->
  split_on sep (s1 ++ String sep s2) cur = (cur ++ s1) :: split_on sep s2 "".
Proof.
  revert cur. induction s1 as [|c s1 IH]; simpl; intros cur H.
  - now rewrite Ascii.eqb_refl, append_empty_r.
  - apply orb_false_iff in H as [Hc Hs]. rewrite Hc, IH by assumption.
    now rewrite append_snoc.
Qed.

Local Close Scope string_scope.

(** ** The dict of a line *)

Lemma dict_get_set d k v k' :
  dict_get (dict_set d k v) k' = if Z.eqb k k' then Some v else dict_get d k'.
Proof.
  induction d as [|[k0 v0] d IH]; simpl.
  - reflexivity.
  - destruct (Z.eqb_spec k0 k) as [->|Hk]; simpl.
    + destruct (Z.eqb_spec k k'); reflexivity.
    + rewrite IH. destruct (Z.eqb_spec k0 k') as [->|Hk'].
      * destruct (Z.eqb_spec k k'); [congruence|reflexivity].
      * reflexivity.
Qed.

Lemma dict_set_keys d k v k' :
  In k' (map fst (dict_set d k v)) <-> k' = k \/ In k' (map fst d).
Proof.
  induction d as [|[k0 v0] d IH]; simpl.
  - intuition.
  - destruct (Z.eqb_spec k0 k) as [->|Hk]; simpl; [intuition|].
    rewrite IH. intuition.
Qed.

Lemma dict_set_nodup d k v :
  NoDup (map fst d) -> NoDup (map fst (dict_set d k v)).
Proof.
  induction d as [|[k0 v0] d IH]; simpl; intros H.
  - repeat constructor. intros [].
  - inversion H as [|? ? Hn Hd]; subst.
    destruct (Z.eqb_spec k0 k) as [->|Hk]; simpl.
    + now constructor.
    + constructor; [|now apply IH].
      rewrite dict_set_keys. intros [E|Hin]; [congruence|contradiction].
Qed.

Lemma dict_of_nodup_from pairs d :
  NoDup (map fst d) ->
  NoDup (map fst (fold_left (fun d kv => dict_set d (fst kv) (snd kv)) pairs d)).
Proof.
  revert d. induction pairs as [|kv pairs IH]; simpl; intros d H.
  - exact H.
  - now apply IH, dict_set_nodup.
Qed.

Lemma dict_of_nodup pairs : NoDup (map fst (dict_of pairs)).
Proof. apply dict_of_nodup_from. constructor. Qed.

Lemma dict_get_in d k v :
  NoDup (map fst d) -> (In (k, v) d <-> dict_get d k = Some v).
Proof.
  induction d as [|[k0 v0] d IH]; simpl; intros H.
  - split; [intros []|discriminate].
  - inversion H as [|? ? Hn Hd]; subst.
    destruct (Z.eqb_spec k0 k) as [->|Hk].
    + split.
      * intros [E|Hin]; [congruence|].
        exfalso. apply Hn. apply (in_map fst) in Hin. exact Hin.
      * intros E. left. congruence.
    + rewrite <- (IH Hd). split; [intros [E|Hin]; [congruence|exact Hin]|auto].
Qed.

Lemma dict_of_get pairs k : dict_get (dict_of pairs) k = last_count pairs k.
Proof.
  unfold dict_of, last_count.
  assert (H : forall d,
    dict_get (fold_left (fun d kv => dict_set d (fst kv) (snd kv)) pairs d) k
    = fold_left (fun acc p => if Z.eqb (fst p) k then Some (snd p) else acc)
                pairs (dict_get d k)).
  { induction pairs as [|kv pairs IH]; simpl; intros d; [reflexivity|].
    now rewrite IH, dict_get_set. }
  apply H.
Qed.

Lemma dict_values d0 d :
  (forall k v, In (k, v) d -> dict_get d0 k = Some v) ->
  for_each (fun i => v <- dict_subscript d0 i ;; Ok [v]) (map fst d)
  = Ok (map snd d).
Proof.
  induction d as [|[k v] d IH]; simpl; intros H; [reflexivity|].
  unfold dict_subscript at 1. rewrite (H k v) by now left. simpl.
  rewrite IH by (intros; apply H; now right). reflexivity.
Qed.

Lemma dict_rows (a : nat) (d : list (Z * Z)) :
  generic_generator (repeat a (length (map fst d))) (map fst d) (map snd d)
  = map (fun kv => (a, fst kv, snd kv)) d.
Proof.
  unfold generic_generator. rewrite length_map.
  induction d as [|[k v] d IH]; simpl; [reflexivity|now rewrite IH].
Qed.

Lemma parse_terms_pairs toks pairs d :
  Forall2 (fun tok kv => parse_term tok = Ok kv) toks pairs ->
  parse_terms toks d
  = Ok (fold_left (fun d kv => dict_set d (fst kv) (snd kv)) pairs d).
Proof.
  intros H. revert d.
  induction H as [|tok kv toks pairs Hp _ IH]; simpl; intros d.
  - reflexivity.
  - rewrite Hp. simpl. apply IH.
Qed.

Lemma executemany_rows (d : nat) (terms : list (Z * Z)) :
  executemany (map (fun kv => (d, fst kv, snd kv)) terms)
  = if forallb (fun kv => int64 (fst kv) && int64 (snd kv)) terms
    then Ok (map (fun kv => (d, fst kv, snd kv)) terms)
    else Raise OverflowError.
Proof.
  unfold executemany.
  assert (E : forallb (fun r : nat * Z * Z => int64 (snd (fst r)) && int64 (snd r))
                      (map (fun kv => (d, fst kv, snd kv)) terms)
              = forallb (fun kv => int64 (fst kv) && int64 (snd kv)) terms).
  { induction terms as [|kv t IH]; simpl; [reflexivity|now rewrite IH]. }
  now rewrite E.
Qed.

Lemma doc_term_round_rows d line pairs :
  Forall2 (fun tok kv => parse_term tok = Ok kv) (tl (py_split line)) pairs ->
  doc_term_round (d, line)
  = if line_fits pairs
    then Ok (map (fun kv => (d, fst kv, snd kv)) (dict_of pairs))
    else Raise OverflowError.
Proof.
  intros H. unfold doc_term_round.
  rewrite (parse_terms_pairs _ _ _ H). fold (dict_of pairs). cbn [bind].
  rewrite (dict_values (dict_of pairs) (dict_of pairs)).
  - cbn [bind]. rewrite dict_rows. apply executemany_rows.
  - intros k v Hin. now apply dict_get_in; [apply dict_of_nodup|].
Qed.

Lemma forall2_nth_error {A B : Type} (R : A -> B -> Prop) l l' i x :
  Forall2 R l l' -> nth_error l i = Some x ->
  exists y, nth_error l' i = Some y /\ R x y.
Proof.
  intros H. revert i. induction H as [|a b l l' Hab _ IH]; intros i Hi.
  - now destruct i.
  - destruct i as [|i]; simpl in *.
    + injection Hi as <-. eauto.
    + now apply IH.
Qed.

Lemma forall2_nth_error_r {A B : Type} (R : A -> B -> Prop) l l' i y :
  Forall2 R l l' -> nth_error l' i = Some y ->
  exists x, nth_error l i = Some x /\ R x y.
Proof.
  intros H. revert i. induction H as [|a b l l' Hab _ IH]; intros i Hi.
  - now destruct i.
  - destruct i as [|i]; simpl in *.
    + injection Hi as <-. eauto.
    + now apply IH.
Qed.

Lemma for_each_ok_in {A B : Type} (body : A -> result (list B)) l rs x :
  for_each body l = Ok rs -> In x l -> exists b, body x = Ok b.
Proof.
  revert rs. induction l as [|y t IH]; simpl; intros rs H Hin; [destruct Hin|].
  destruct (body y) as [ry|e] eqn:Ey; simpl in H; [|discriminate].
  destruct (for_each body t) as [rt|e] eqn:Et; simpl in H; [|discriminate].
  destruct Hin as [->|Hin]; [eauto|]. now apply (IH rt).
Qed.

Lemma for_each_raise_mem {A B : Type} (body : A -> result (list B)) (e : exn) l :
  (forall x e', In x l -> body x = Raise e' -> e' = e) ->
  forall e', for_each body l = Raise e' -> e' = e.
Proof.
  induction l as [|x t IH]; simpl; intros Hb e' H.
  - discriminate.
  - destruct (body x) as [rx|e1] eqn:Ex; simpl in H.
    + destruct (for_each body t) as [rt|e2]; simpl in H; [discriminate|].
      injection H as <-. apply IH; [|reflexivity].
      intros y e'' Hy. apply Hb. now right.
    + injection H as <-. apply (Hb x); [now left|exact Ex].
Qed.

(** ** write_doc_term *)

Lemma write_doc_term_rows wordcount_file no_words parsed :
  Forall2 (fun line pairs =>
             Forall2 (fun tok kv => parse_term tok = Ok kv)
                     (tl (py_split line)) pairs)
          wordcount_file parsed ->
  forallb line_fits parsed = true ->
  write_doc_term wordcount_file no_words
  = Ok (flat_map (fun d => map (fun kv => (d, fst kv, snd kv))
                               (dict_of (nth d parsed [])))
                 (seq 0 (length wordcount_file))).
Proof.
  intros H Hfit. unfold write_doc_term. rewrite <- flat_map_enumerate.
  apply for_each_ok. intros [d line] Hin. apply in_enumerate in Hin.
  destruct (forall2_nth_error _ _ _ _ _ H Hin) as (pairs & Hp & Ht).
  cbn [fst]. rewrite (nth_error_nth _ _ [] Hp).
  rewrite (doc_term_round_rows _ _ _ Ht).
  rewrite forallb_forall in Hfit.
  now rewrite (Hfit pairs (nth_error_In _ _ Hp)).
Qed.

Lemma write_doc_term_overflow wordcount_file no_words parsed :
  Forall2 (fun line pairs =>
             Forall2 (fun tok kv => parse_term tok = Ok kv)
                     (tl (py_split line)) pairs)
          wordcount_file parsed ->
  forallb line_fits parsed = false ->
  write_doc_term wordcount_file no_words = Raise OverflowError.
Proof.
  intros H Hfit. unfold write_doc_term.
  destruct (for_each doc_term_round (enumerate wordcount_file))
    as [rs|e] eqn:E.
  - exfalso. rewrite <- not_true_iff_false in Hfit. apply Hfit.
    apply forallb_forall. intros pairs Hin.
    apply In_nth_error in Hin as (d & Hd).
    destruct (forall2_nth_error_r _ _ _ _ _ H Hd) as (line & Hl & Ht).
    apply in_enumerate in Hl.
    destruct (for_each_ok_in _ _ _ _ E Hl) as (b & Hb).
    rewrite (doc_term_round_rows _ _ _ Ht) in Hb.
    destruct (line_fits pairs); [reflexivity|discriminate].
  - f_equal. revert E. apply for_each_raise_mem.
    intros [d line] e' Hin He. apply in_enumerate in Hin.
    destruct (forall2_nth_error _ _ _ _ _ H Hin) as (pairs & Hp & Ht).
    rewrite (doc_term_round_rows _ _ _ Ht) in He.
    destruct (line_fits pairs); [discriminate|congruence].
Qed.

(** X16.  When every token after the first of every line reads as
    [term:count], what [write_doc_term] does depends on the dict of each
    line, which holds every term id of the line once, with the count of
    its last occurrence.  When the term ids and counts of every dict fit
    in 64 bits, it inserts, for the line number [d] of the file (the first
    token of the line plays no part), one row per distinct term id of the
    line: no pair (document, term) occurs twice, and [(d, k, v)] is
    inserted exactly when [v] is the last count given to [k] on line [d].
    When some do not fit, it raises OverflowError. *)
Theorem doc_term_last_count_per_term wordcount_file no_words parsed :
  Forall2 (fun line pairs =>
             Forall2 (fun tok kv => parse_term tok = Ok kv)
                     (tl (py_split line)) pairs)
          wordcount_file parsed ->
  (forallb line_fits parsed = true ->
   exists rs,
     write_doc_term wordcount_file no_words = Ok rs /\
     NoDup (map fst rs) /\
     forall d k v,
       In (d, k, v) rs <->
       exists pairs,
         nth_error parsed d = Some pairs /\ last_count pairs k = Some v) /\
  (forallb line_fits parsed = false ->
   write_doc_term wordcount_file no_words = Raise OverflowError).
Proof.
  intros H. split; [|now apply write_doc_term_overflow].
  intros Hfit.
  assert (Hlen := Forall2_length H).
  eexists. split; [now apply (write_doc_term_rows _ _ parsed)|]. split.
  - rewrite flat_map_concat_map, concat_map, map_map, <- flat_map_concat_map.
    erewrite flat_map_ext;
      [apply (nodup_pairs _ (fun d => map fst (dict_of (nth d parsed []))))|].
    + apply seq_NoDup.
    + intros d. apply dict_of_nodup.
    + intros d. rewrite !map_map. reflexivity.
  - intros d k v. rewrite in_flat_map. split.
    + intros (d' & Hd' & Hin). apply in_map_iff in Hin as ([k' v'] & E & Hin).
      simpl in E. injection E as -> -> ->. apply in_seq in Hd'.
      exists (nth d parsed []). split; [apply nth_error_nth'; lia|].
      rewrite <- dict_of_get. now apply dict_get_in; [apply dict_of_nodup|].
    + intros (pairs & Hp & Hl). exists d. split.
      * apply in_seq. split; [lia|]. simpl. rewrite Hlen.
        apply nth_error_Some. congruence.
      * rewrite (nth_error_nth _ _ [] Hp). apply in_map_iff.
        exists (k, v). split; [reflexivity|].
        apply dict_get_in; [apply dict_of_nodup|]. now rewrite dict_of_get.
Qed.

Lemma doc_term_last_count_per_term_witness :
  (exists rs,
     write_doc_term ["doc5 3:2 7:1 3:9"%string; "x"%string] 10 = Ok rs /\
     forall d k v,
       In (d, k, v) rs <->
       exists pairs,
         nth_error [[(3, 2); (7, 1); (3, 9)]%Z; []] d = Some pairs /\
         last_count pairs k = Some v) /\
  write_doc_term ["d 1:9223372036854775808"%string] 10 = Raise OverflowError.
Proof.
  split.
  - destruct (proj1 (doc_term_last_count_per_term
                ["doc5 3:2 7:1 3:9"%string; "x"%string] 10
                [[(3, 2); (7, 1); (3, 9)]%Z; []]
                ltac:(repeat constructor)) eq_refl) as (rs & H & _ & Hin).
    exists rs. split; assumption.
  - apply (proj2 (doc_term_last_count_per_term
                ["d 1:9223372036854775808"%string] 10
                [[(1, 9223372036854775808)]%Z]
                ltac:(repeat constructor))).
    reflexivity.
Defined.

Lemma relabelled_tokens l1 l2 :
  relabelled l1 l2 -> tl (py_split l1) = tl (py_split l2).
Proof.
  intros (lab1 & lab2 & sp & rest & -> & -> & Hs & H1 & H2 & N1 & N2).
  now rewrite !py_split_label.
Qed.

Lemma for_each_enumerate_ext {A B : Type} (body : nat * A -> result (list B))
  (R : A -> A -> Prop) l1 l2 :
  (forall d x y, R x y -> body (d, x) = body (d, y)) ->
  Forall2 R l1 l2 ->
  for_each body (enumerate l1) = for_each body (enumerate l2).
Proof.
  intros Hb H. unfold enumerate.
  rewrite <- (Forall2_length H). generalize 0.
  induction H as [|x y l1 l2 Hxy _ IH]; intros s; simpl; [reflexivity|].
  now rewrite (Hb s x y Hxy), IH.
Qed.

(** X17.  The first token of a line and the parameter [no_words] play no
    part in [write_doc_term]: two files whose lines differ in their first
    token only give the same result, rows or exception.  In particular the
    document of a row is the number of its line, whatever label the line
    starts with. *)
Theorem doc_term_ignores_labels file1 file2 no_words1 no_words2 :
  Forall2 relabelled file1 file2 ->
  write_doc_term file1 no_words1 = write_doc_term file2 no_words2.
Proof.
  intros H. unfold write_doc_term.
  apply (for_each_enumerate_ext _ relabelled); [|exact H].
  intros d x y Hxy. unfold doc_term_round.
  now rewrite (relabelled_tokens x y Hxy).
Qed.

Lemma doc_term_ignores_labels_witness :
  write_doc_term ["doc5 3:2 7:1"%string] 10
  = write_doc_term ["d 3:2 7:1"%string] 0.
Proof.
  apply doc_term_ignores_labels. constructor; [|constructor].
  exists "doc5"%string, "d"%string, " "%char, "3:2 7:1"%string.
  repeat split; discriminate.
Defined.

(** ** Tokens that are not [term:count] *)

Lemma parse_unsigned_raise s e : parse_unsigned s = Raise e -> e = ValueError.
Proof.
  unfold parse_unsigned. destruct s; [congruence|].
  destruct (parse_digits _ _); congruence.
Qed.

Lemma py_int_raise s e : py_int s = Raise e -> e = ValueError.
Proof.
  unfold py_int. destruct s as [|c s]; [apply parse_unsigned_raise|].
  destruct (Ascii.eqb_spec c "+"%char) as [->|Hp];
    [apply parse_unsigned_raise|].
  destruct (Ascii.eqb_spec c "-"%char) as [->|Hm].
  - destruct (parse_unsigned s) eqn:E; simpl; [discriminate|].
    intros H. injection H as <-. now apply parse_unsigned_raise in E.
  - intros H.
    assert (E : parse_unsigned (String c s) = Raise e).
    { destruct c as [[] [] [] [] [] [] [] []]; try exact H;
        exfalso; (apply Hp; reflexivity) || (apply Hm; reflexivity). }
    now apply parse_unsigned_raise in E.
Qed.

Lemma parse_terms_raise toks tok d :
  In tok toks -> (exists e, parse_term tok = Raise e) ->
  exists e, parse_terms toks d = Raise e.
Proof.
  revert d. induction toks as [|t toks IH]; simpl; intros d Hin (e & He).
  - destruct Hin.
  - destruct (parse_term t) as [kv|e'] eqn:Et; simpl; [|eauto].
    destruct Hin as [->|Hin]; [congruence|]. apply IH; eauto.
Qed.

(** X18.  A token without a colon makes [parse_term] raise IndexError, and
    a token with a colon can only fail with ValueError (a field that is
    not an integer).  A single token after the first of a line that cannot
    be read makes the whole of [write_doc_term] raise. *)
Theorem doc_term_malformed_token :
  (forall term, contains ":"%char term = false ->
                parse_term term = Raise IndexError) /\
  (forall term e, contains ":"%char term = true ->
                  parse_term term = Raise e -> e = ValueError) /\
  (forall wordcount_file no_words line tok,
      In line wordcount_file -> In tok (tl (py_split line)) ->
      (exists e, parse_term tok = Raise e) ->
      exists e, write_doc_term wordcount_file no_words = Raise e).
Proof.
  split; [|split].
  - intros term H. unfold parse_term. now rewrite split_on_none.
  - intros term e H. unfold parse_term.
    destruct (split_on_some ":"%char term EmptyString H) as (f0 & f1 & fs & ->).
    unfold subscript. cbn [nth_error bind].
    destruct (py_int f1) as [v|e1] eqn:E1; cbn [bind].
    + destruct (py_int f0) as [k|e0] eqn:E0; cbn [bind]; [discriminate|].
      intros H'. injection H' as <-. now apply py_int_raise in E0.
    + intros H'. injection H' as <-. now apply py_int_raise in E1.
  - intros wordcount_file no_words line tok Hl Ht He.
    unfold write_doc_term. apply for_each_raise_in.
    apply In_nth_error in Hl as (d & Hd).
    exists (d, line). split; [now apply in_enumerate|].
    unfold doc_term_round.
    destruct (parse_terms_raise _ tok [] Ht He) as (e & ->).
    exists e. reflexivity.
Qed.

Lemma doc_term_malformed_token_witness :
  parse_term "7"%string = Raise IndexError /\
  exists e, write_doc_term ["doc5 3:2 7"%string] 10 = Raise e.
Proof.
  destruct doc_term_malformed_token as (H1 & _ & H3). split.
  - apply H1. reflexivity.
  - apply (H3 ["doc5 3:2 7"%string] 10 "doc5 3:2 7"%string "7"%string).
    + simpl. auto.
    + simpl. auto.
    + exists IndexError. reflexivity.
Defined.

(** ** Reading back decimal numbers *)

Lemma parse_digits_uint_acc d p :
  parse_digits (NilEmpty.string_of_uint d) (Zpos p)
  = Some (Zpos (Pos.of_uint_acc d p)).
Proof.
  revert p.
  induction d; intros p;
    cbn [NilEmpty.string_of_uint parse_digits Pos.of_uint_acc];
    [reflexivity|..];
    match goal with
    | |- context [digit_of ?c] =>
        let v := eval vm_compute in (digit_of c) in
        change (digit_of c) with v
    end;
    cbv beta iota; rewrite <- IHd; f_equal; lia.
Qed.

Lemma parse_digits_uint d :
  parse_digits (NilEmpty.string_of_uint d) 0%Z = Some (Z.of_N (Pos.of_uint d)).
Proof.
  induction d;
    cbn [NilEmpty.string_of_uint parse_digits Pos.of_uint];
    [reflexivity|..];
    match goal with
    | |- context [digit_of ?c] =>
        let v := eval vm_compute in (digit_of c) in
        change (digit_of c) with v
    end;
    cbv beta iota; [exact IHd|..];
    match goal with
    | |- parse_digits _ ?acc = _ =>
        let v := eval vm_compute in acc in change acc with v
    end;
    apply parse_digits_uint_acc.
Qed.

Lemma uint_no_colon d : contains ":"%char (NilEmpty.string_of_uint d) = false.
Proof. induction d; simpl; auto. Qed.

Lemma py_int_uint d :
  d <> Nil ->
  py_int (NilEmpty.string_of_uint d) = Ok (Z.of_N (Pos.of_uint d)) /\
  parse_unsigned (NilEmpty.string_of_uint d) = Ok (Z.of_N (Pos.of_uint d)).
Proof.
  intros Hd.
  assert (H := parse_digits_uint d).
  destruct d; try contradiction;
    (split; [unfold py_int|]); unfold parse_unsigned;
    cbn [NilEmpty.string_of_uint] in *; now rewrite H.
Qed.

Lemma to_uint_not_nil p : Pos.to_uint p <> Nil.
Proof.
  intros E. assert (H := DecimalPos.Unsigned.of_to p).
  rewrite E in H. discriminate.
Qed.

Lemma py_str_pos p :
  py_str (Zpos p) = NilEmpty.string_of_uint (Pos.to_uint p) /\
  py_str (Zneg p) = String "-"%char (NilEmpty.string_of_uint (Pos.to_uint p)).
Proof.
  unfold py_str. simpl. unfold NilZero.string_of_uint.
  assert (H := to_uint_not_nil p).
  destruct (Pos.to_uint p); try contradiction; split; reflexivity.
Qed.

Lemma py_int_str z : py_int (py_str z) = Ok z.
Proof.
  destruct z as [|p|p].
  - reflexivity.
  - rewrite (proj1 (py_str_pos p)).
    rewrite (proj1 (py_int_uint _ (to_uint_not_nil p))).
    now rewrite DecimalPos.Unsigned.of_to.
  - rewrite (proj2 (py_str_pos p)). unfold py_int.
    rewrite (proj2 (py_int_uint _ (to_uint_not_nil p))).
    now rewrite DecimalPos.Unsigned.of_to.
Qed.

Lemma py_str_no_colon z : contains ":"%char (py_str z) = false.
Proof.
  destruct z as [|p|p].
  - reflexivity.
  - rewrite (proj1 (py_str_pos p)). apply uint_no_colon.
  - rewrite (proj2 (py_str_pos p)). simpl. apply uint_no_colon.
Qed.

(** X19.  [parse_term] reads back what is written in the format of the
    word-count file: for all integers [k] and [v], negative ones included,
    the token made of the decimal writing of [k], a colon and the decimal
    writing of [v] is read as the pair [(k, v)]. *)
Theorem parse_term_reads_back k v :
  parse_term (py_str k ++ String ":"%char (py_str v))%string = Ok (k, v).
Proof.
  unfold parse_term.
  rewrite split_on_app by apply py_str_no_colon.
  rewrite split_on_none by apply py_str_no_colon.
  unfold subscript. cbn [nth_error bind append].
  now rewrite !py_int_str.
Qed.

(** ** The driver *)

Lemma top_rows_total (theta : list (list float)) (f : list (list float) -> nat -> list row) :
  (forall a, length (f theta a) = Nat.min 100 (length theta - a)) ->
  length (flat_map (f theta) (seq 0 (length theta)))
  = doc_doc_count (length theta).
Proof.
  intros H. rewrite length_flat_map. unfold doc_doc_count. f_equal.
  apply map_ext. intros a. apply H.
Qed.

Lemma term_term_rows_length v a :
  length (term_term_rows v a) = Nat.min 100 (length v - a).
Proof.
  unfold term_term_rows.
  set (sc := drop_zeros (map (term_pair (nth a v [])) (skipn a v))).
  destruct (top_rows_spec a (length sc) sc (Nat.le_min_r _ _)) as (H & _).
  rewrite H. unfold sc.
  now rewrite drop_zeros_length, length_map, length_skipn.
Qed.

Lemma rectangular_total k (lines : list (list float)) :
  rectangular k lines = true ->
  list_sum (map (fun l => length l) lines) = length lines * k.
Proof.
  induction lines as [|r t IH]; simpl; intros H; [reflexivity|].
  apply andb_prop in H as [Hr Ht]. apply Nat.eqb_eq in Hr.
  rewrite IH by assumption. lia.
Qed.

Lemma write_doc_term_ok wordcount_file no_words parsed :
  Forall2 (fun line pairs =>
             Forall2 (fun tok kv => parse_term tok = Ok kv)
                     (tl (py_split line)) pairs)
          wordcount_file parsed ->
  forallb line_fits parsed = true ->
  exists rs, write_doc_term wordcount_file no_words = Ok rs.
Proof.
  intros H Hfit. eexists. now apply (write_doc_term_rows _ _ parsed).
Qed.

Lemma run_writer_not_usage {A : Type} (r : result (list A)) store next db :
  (forall db', next db' <> Usage) -> run_writer r store next db <> Usage.
Proof. intros H. unfold run_writer. destruct r; [apply H|discriminate]. Qed.




Section DriverFacts.
Variable np_exp : float -> float.
Variable read_lines : string -> list string.
Variable read_floats : string -> list (list float).

(** X20.  The driver writes nothing unless it is given exactly six
    arguments after its own name: it ends on the usage message exactly
    when [argv] does not have seven entries. *)
Theorem main_usage argv :
  main np_exp read_lines read_floats argv = Usage <-> length argv <> 7.
Proof.
  unfold main.
  destruct argv as [|a0 [|a1 [|a2 [|a3 [|a4 [|a5 [|a6 [|a7 argv]]]]]]]];
    simpl length; try (split; [intros _; lia | reflexivity]).
  split; [|lia]. intros H. exfalso. revert H.
  repeat (apply run_writer_not_usage; intros ?).
  discriminate.
Qed.


End DriverFacts.

Lemma main_usage_witness :
  main (fun x => x) (fun _ => []) (fun _ => []) ["generate_db.py"%string]
  = Usage.
Proof.
  apply (main_usage (fun x => x) (fun _ => []) (fun _ => [])
           ["generate_db.py"%string]).
  simpl. lia.
Defined.


(** X22.  A complete run.  When the gamma file holds [n >= 2] documents
    over [k >= 2] topics, the beta file [t >= 1] topics over [w] terms
    with [3 <= w] and [w] at most the number of lines of the vocabulary
    file, and every token after the first of every line of the word-count
    file reads as [term:count] with term ids and counts that fit in 64
    bits, the run completes, the nine tables exist,
    and eight of them have these sizes: one term and one document title
    per line of their files, [sum(min(100, n - i))] rows of doc_doc, [n k]
    of doc_topic, [t] topic titles, [t w] rows of topic_term,
    [t (t + 1) / 2] of topic_topic and [sum(min(100, t - i))] of
    term_term. *)
Theorem main_completed_tables np_exp read_lines read_floats
  prog filename doc_wordcount_file beta_file gamma_file vocab_file doc_file
  n k t w parsed :
  matrix_file n k (read_floats gamma_file) ->
  1 <= t -> length (read_floats beta_file) = t ->
  rectangular w (read_floats beta_file) = true ->
  3 <= w <= length (read_lines vocab_file) ->
  Forall2 (fun line pairs =>
             Forall2 (fun tok kv => parse_term tok = Ok kv)
                     (tl (py_split line)) pairs)
          (read_lines doc_wordcount_file) parsed ->
  forallb line_fits parsed = true ->
  exists db size_doc_term,
    main np_exp read_lines read_floats
         [prog; filename; doc_wordcount_file; beta_file; gamma_file;
          vocab_file; doc_file] = Completed db /\
    tables db
    = [Some (length (read_lines vocab_file));
       Some (length (read_lines doc_file));
       Some (doc_doc_count n); Some (n * k); Some t; Some (t * w);
       Some (triangle t); Some (doc_doc_count t); Some size_doc_term].
Proof.
  intros Hg Ht Hlen Hrect Hw Hp Hfit.
  destruct (write_doc_term_ok _ (length (map (fun x => strip x)
                                           (read_lines vocab_file))) _ Hp Hfit)
    as (rdt & Hdt).
  destruct (for_each_forall2 (topics_round
              (map (fun x => strip x) (read_lines vocab_file)))
              (top3_title (map (fun x => strip x) (read_lines vocab_file)))
              (read_floats beta_file)) as (titles & Htitles & HF).
  { intros topic Hin. apply topics_round_top3.
    - unfold rectangular in Hrect. rewrite forallb_forall in Hrect.
      apply Hrect, Nat.eqb_eq in Hin. lia.
    - rewrite length_map.
      unfold rectangular in Hrect. rewrite forallb_forall in Hrect.
      apply Hrect, Nat.eqb_eq in Hin. lia. }
  assert (Hgl : length (read_floats gamma_file) = n)
    by now destruct Hg as (_ & _ & ? & _).
  assert (Hgr : rectangular k (read_floats gamma_file) = true)
    by now destruct Hg as (_ & _ & _ & ?).
  eexists. exists (length rdt).
  assert (Next : forall (A : Type) (rows : list A) store next db,
             run_writer (Ok rows) store next db = next (store rows db))
    by reflexivity.
  unfold main, write_terms, write_docs.
  rewrite (write_doc_doc_rows n k _ Hg).
  rewrite (write_doc_topic_rows _ _ (loadtxt_matrix n k _ Hg)).
  unfold write_topics. rewrite Htitles.
  rewrite write_topic_term_rows.
  rewrite (write_topic_topic_rows t w _ Ht Hlen Hrect).
  rewrite (write_term_term_rows np_exp t w _ _ Ht Hlen Hrect).
  rewrite Hdt.
  do 9 (rewrite Next;
        cbn [db_terms db_docs db_doc_doc db_doc_topic db_topics db_topic_term
             db_topic_topic db_term_term db_doc_term empty_database]).
  split; [reflexivity|].
  unfold tables. cbn [db_terms db_docs db_doc_doc db_doc_topic db_topics
                      db_topic_term db_topic_topic db_term_term db_doc_term
                      table_size].
  unfold file_generator. rewrite !length_map.
  repeat f_equal.
  - assert (T := top_rows_total
                   (rows (theta_of (mkArray2 k (read_floats gamma_file))))
                   doc_doc_rows (fun a => doc_doc_rows_length _ a)).
    rewrite theta_length in T. cbn [rows] in T. now rewrite Hgl in T.
  - rewrite length_flat_map, <- Hgl, <- (rectangular_total k _ Hgr).
    rewrite <- (map_seq_nth (fun l => length l) (read_floats gamma_file) []).
    f_equal. apply map_ext. intros d. unfold doc_topic_rows.
    now rewrite length_map, length_seq.
  - apply Forall2_length in HF. now rewrite <- HF.
  - rewrite length_flat_map, <- Hlen, <- (rectangular_total w _ Hrect).
    rewrite <- (map_seq_nth (fun l => length l) (read_floats beta_file) []).
    f_equal. apply map_ext. intros d.
    rewrite length_map, length_rev. apply argsort_length.
  - rewrite length_flat_map, <- triangle_sum. f_equal. apply map_ext.
    intros i. unfold topic_topic_rows. rewrite length_map, length_seq.
    now rewrite Hlen.
  - assert (T := top_rows_total
                   (map (map (fun x => np_sqrt (np_exp x)))
                        (read_floats beta_file))
                   term_term_rows (fun a => term_term_rows_length _ a)).
    rewrite length_map in T. now rewrite Hlen in T.
Qed.

Lemma main_completed_tables_witness :
  let read_lines := fun f : string =>
    if String.eqb f "v" then ["a"; "b"; "c"]%string
    else if String.eqb f "w" then ["d0 0:1 2:3"; "d1 1:2"]%string
    else ["t0"; "t1"]%string in
  let read_floats := fun f : string =>
    if String.eqb f "g" then [[1; 3]; [3; 1]]%float else [[1; 2; 3]]%float in
  exists db size_doc_term,
    main (fun x => x) read_lines read_floats
         ["p"; "db"; "w"; "b"; "g"; "v"; "d"]%string = Completed db /\
    tables db
    = [Some 3; Some 2; Some (doc_doc_count 2); Some (2 * 2); Some 1;
       Some (1 * 3); Some (triangle 1); Some (doc_doc_count 1);
       Some size_doc_term].
Proof.
  intros read_lines read_floats.
  apply (main_completed_tables (fun x => x) read_lines read_floats
           "p"%string "db"%string "w"%string "b"%string "g"%string
           "v"%string "d"%string 2 2 1 3
           [[(0, 1); (2, 3)]; [(1, 2)]]%Z).
  - unfold matrix_file. repeat split; try reflexivity; lia.
  - lia.
  - reflexivity.
  - reflexivity.
  - simpl. lia.
  - repeat constructor.
  - reflexivity.
Defined.
